(** * SafeC: bounds-checked wrappers of the C memory and string primitives

    A shallow embedding of [secure_string_header_only.h] and the proofs of
    its specification.

    - Memory is one flat byte-addressed heap, a [list Z] of byte values;
      a pointer is an address ([Z]) into it and [BAD_PTR] is address 0.
    - [size_t] is a [w]-bit unsigned integer: a [Z] with the wrap-around of
      its additions and subtractions written out.
    - Every function runs in the monad [M]: it returns a value and a new
      state, or the process is aborted (the handlers of the header never
      return), or the behaviour is undefined in C (an access outside the
      heap, a null pointer handed to a primitive, overlapping [memcpy]).
    - The diagnostic stream is the list of the messages written to it. *)

From Stdlib Require Import ZArith String Ascii Lia ZifyBool.
From stdpp Require Import base list strings pretty.

Local Open Scope string_scope.
Local Open Scope list_scope.
Local Open Scope Z_scope.

(** ** Machine state and the monad of the C functions *)

Record state : Type := mkState {
  heap : list Z;          (* the bytes of memory, index = address *)
  stderr : list string    (* what was written to the error stream, in order *)
}.

Definition set_heap (h : list Z) (st : state) : state :=
  {| heap := h; stderr := stderr st |}.

Definition emit (msgs : list string) (st : state) : state :=
  {| heap := heap st; stderr := stderr st ++ msgs |}.

Inductive outcome (A : Type) : Type :=
| Returned (a : A) (st : state)   (* normal return *)
| Aborted (st : state)            (* abort() was called in state [st] *)
| Undefined.                      (* undefined behaviour of C *)
Arguments Returned {A} a st.
Arguments Aborted {A} st.
Arguments Undefined {A}.

Definition M (A : Type) : Type := state -> outcome A.

#[global] Instance M_ret : MRet M := fun A a st => Returned a st.

#[global] Instance M_bind : MBind M := fun A B k c st =>
  match c st with
  | Returned a st' => k a st'
  | Aborted st' => Aborted st'
  | Undefined => Undefined
  end.

(** [if (b) { c; }] *)
Definition when (b : bool) (c : M unit) : M unit :=
  if b then c else mret tt.

(** ** Constants of the header *)

Definition ERR_POTENTIAL_BUFFER_OVERFLOW : Z := 34.
Definition ERR_POTENTIAL_INTEGER_OVERFLOW : Z := 75.
Definition BAD_PTR : Z := 0.

(** The values of [errno.h] the header's comments refer to (Linux). *)
Definition ERANGE : Z := 34.
Definition EOVERFLOW : Z := 75.

(** ** [size_t] arithmetic *)

Section SizeT.
Variable w : Z.

Definition size_wrap (z : Z) : Z := z mod 2 ^ w.
Definition size_add (a b : Z) : Z := size_wrap (a + b).
Definition size_sub (a b : Z) : Z := size_wrap (a - b).
Definition is_size_t (z : Z) : Prop := 0 <= z < 2 ^ w.
End SizeT.

(** ** Memory accesses *)

(** [n] bytes from address [p] on lie inside the heap and [p] is not null. *)
Definition in_bounds (h : list Z) (p n : Z) : bool :=
  (0 <? p) && (0 <=? n) && (p + n <=? Z.of_nat (length h)).

Definition load_bytes (h : list Z) (p n : Z) : option (list Z) :=
  if in_bounds h p n
  then Some (take (Z.to_nat n) (drop (Z.to_nat p) h))
  else None.

Definition store_bytes (h : list Z) (p : Z) (bs : list Z) : option (list Z) :=
  if in_bounds h p (Z.of_nat (length bs))
  then Some (list_inserts (Z.to_nat p) bs h)
  else None.

(** The byte at address [a], when there is one. *)
Definition byte_at (st : state) (a : Z) : option Z :=
  if 0 <=? a then heap st !! Z.to_nat a else None.

(** [(unsigned char)ch] *)
Definition to_uchar (ch : Z) : Z := Z.land ch 255.

(** ** The primitives of [<string.h>], after ISO C 7.24 *)

Definition regions_overlap (p q n : Z) : bool :=
  (p <? q + n) && (q <? p + n).

Definition memcpy (destination source count : Z) : M Z := fun st =>
  match load_bytes (heap st) source count with
  | Some bs =>
      if regions_overlap destination source count then Undefined
      else match store_bytes (heap st) destination bs with
           | Some h' => Returned destination (set_heap h' st)
           | None => Undefined
           end
  | None => Undefined
  end.

Definition memset (destination ch count : Z) : M Z := fun st =>
  if 0 <=? count then
    match store_bytes (heap st) destination
            (replicate (Z.to_nat count) (to_uchar ch)) with
    | Some h' => Returned destination (set_heap h' st)
    | None => Undefined
    end
  else Undefined.

(** [*p = c] *)
Definition store_char (p c : Z) : M unit := fun st =>
  match store_bytes (heap st) p [to_uchar c] with
  | Some h' => Returned tt (set_heap h' st)
  | None => Undefined
  end.

(** Index of the first zero byte. *)
Fixpoint strlen_bytes (l : list Z) : option Z :=
  match l with
  | [] => None
  | c :: t => if c =? 0 then Some 0 else Z.succ <$> strlen_bytes t
  end.

Definition strlen (s : Z) : M Z := fun st =>
  if in_bounds (heap st) s 0 then
    match strlen_bytes (drop (Z.to_nat s) (heap st)) with
    | Some n => Returned n st
    | None => Undefined
    end
  else Undefined.

(** Difference of the first pair of bytes that differ. *)
Fixpoint memcmp_bytes (l1 l2 : list Z) : Z :=
  match l1, l2 with
  | c1 :: t1, c2 :: t2 => if c1 =? c2 then memcmp_bytes t1 t2 else c1 - c2
  | _, _ => 0
  end.

Definition memcmp (ptr1 ptr2 num : Z) : M Z := fun st =>
  match load_bytes (heap st) ptr1 num, load_bytes (heap st) ptr2 num with
  | Some l1, Some l2 => Returned (memcmp_bytes l1 l2) st
  | _, _ => Undefined
  end.

(** As [memcmp_bytes], over at most [n] characters and not beyond a
    terminator; [None] when it runs off the heap. *)
Fixpoint strncmp_bytes (n : nat) (l1 l2 : list Z) : option Z :=
  match n with
  | O => Some 0
  | S n' =>
      match l1, l2 with
      | c1 :: t1, c2 :: t2 =>
          if c1 =? c2
          then if c1 =? 0 then Some 0 else strncmp_bytes n' t1 t2
          else Some (c1 - c2)
      | _, _ => None
      end
  end.

Definition strncmp (str1 str2 count : Z) : M Z := fun st =>
  if in_bounds (heap st) str1 0 && in_bounds (heap st) str2 0 && (0 <=? count)
  then
    match strncmp_bytes (Z.to_nat count)
            (drop (Z.to_nat str1) (heap st))
            (drop (Z.to_nat str2) (heap st)) with
    | Some r => Returned r st
    | None => Undefined
    end
  else Undefined.

(** ** Diagnostics and termination *)

Definition newline : string := String (ascii_of_nat 10) EmptyString.

(** [write(STDERR_FILENO, msg, strlen(msg))], its result ignored (the
    branch of the header for systems other than Windows). *)
Definition error_print (msg : string) : M unit := fun st =>
  Returned tt (emit [msg] st).

Definition abort : M unit := fun st => Aborted st.

Definition error_with_prefix_msg (api_name err_msg_prefix : string) : M unit :=
  error_print err_msg_prefix;;
  error_print api_name;;
  error_print newline;;
  abort.

(** [snprintf(buf, size, ...)] keeps at most [size - 1] characters. *)
Definition snprintf_keep (size : nat) (s : string) : string :=
  substring 0 (size - 1) s.

(** [%zu] *)
Definition fmt_zu (z : Z) : string := pretty (Z.to_N z).

Definition overflow_size_msg (destination_size writing_size : Z) : string :=
  snprintf_keep 128
    ("[err] Aborting due to potential buffer overflow, writing size "
       +:+ fmt_zu writing_size +:+ " to destination "
       +:+ fmt_zu destination_size +:+ " in: ").

Definition buffer_overflow_error_with_size
    (api_name : string) (destination_size writing_size : Z) : M unit :=
  error_with_prefix_msg api_name
    (overflow_size_msg destination_size writing_size).

Definition buffer_overflow_error (api_name : string) : M unit :=
  error_with_prefix_msg api_name
    "[err] Aborting due to potential buffer overflow in: ".

Definition buffer_oob_read_error (api_name : string) : M unit :=
  error_with_prefix_msg api_name
    "[err] Aborting due to potential buffer out-of-bounds read in: ".

Definition integer_overflow_error (api_name : string) : M unit :=
  error_with_prefix_msg api_name
    "[err] Aborting due to potential integer overflow in: ".

Definition null_pointer_error (api_name : string) : M unit :=
  error_with_prefix_msg api_name
    "[err] Aborting due to unexpected null pointer in: ".

(** ** The guarded operations *)

Definition checked_memcpy
    (destination destination_size source count : Z) : M Z :=
  when (destination_size <? count)
    (buffer_overflow_error_with_size "checked_memcpy" destination_size count);;
  when ((source =? BAD_PTR) || (destination =? BAD_PTR))
    (null_pointer_error "checked_memcpy");;
  memcpy destination source count.

Section Guarded.
Variable w : Z.

Definition checked_memcpy_offset
    (destination destination_size offset source count : Z) : M Z :=
  when ((destination_size <? count) || (offset >=? destination_size))
    (buffer_overflow_error_with_size "checked_memcpy_offset"
       (size_sub w destination_size offset) count);;
  memcpy (destination + offset) source count;;
  mret destination.

Definition checked_strcat (destination destination_size source : Z) : M Z :=
  dest_str_len ← strlen destination;
  src_str_len ← strlen source;
  let tot_str_len := size_add w dest_str_len src_str_len in
  when (destination_size =? 0)
    (buffer_overflow_error_with_size "checked_strcat"
       destination_size tot_str_len);;
  when (size_add w dest_str_len src_str_len <? dest_str_len)
    (integer_overflow_error "checked_strcat");;
  when (size_sub w destination_size 1 <? tot_str_len)
    (buffer_overflow_error_with_size "checked_strcat"
       (size_sub w destination_size 1) tot_str_len);;
  memcpy (destination + dest_str_len) source src_str_len;;
  store_char (destination + dest_str_len + src_str_len) 0;;
  mret destination.

Definition try_checked_strcat
    (destination destination_size source : Z) : M Z :=
  if destination_size =? 0 then mret ERR_POTENTIAL_BUFFER_OVERFLOW else
  dest_str_len ← strlen destination;
  src_str_len ← strlen source;
  if size_add w dest_str_len src_str_len <? dest_str_len
  then mret ERR_POTENTIAL_INTEGER_OVERFLOW else
  if size_sub w destination_size 1 <? size_add w dest_str_len src_str_len
  then mret ERR_POTENTIAL_BUFFER_OVERFLOW else
  memcpy (destination + dest_str_len) source src_str_len;;
  store_char (destination + dest_str_len + src_str_len) 0;;
  mret 0.
End Guarded.

Definition checked_memcpy_robust
    (destination destination_size source source_size count : Z) : M Z :=
  when ((destination_size <? count) || (source_size <? count))
    (buffer_overflow_error "checked_memcpy_robust");;
  memcpy destination source count.

Definition try_checked_memcpy
    (destination destination_size source count : Z) : M Z :=
  if destination_size <? count then mret ERR_POTENTIAL_BUFFER_OVERFLOW else
  memcpy destination source count;;
  mret 0.

Definition try_checked_memcpy_robust
    (destination destination_size source source_size count : Z) : M Z :=
  if (destination_size <? count) || (source_size <? count)
  then mret ERR_POTENTIAL_BUFFER_OVERFLOW else
  memcpy destination source count;;
  mret 0.

Definition checked_memcmp (ptr1 ptr1_size ptr2 ptr2_size num : Z) : M Z :=
  when ((num >? ptr1_size) || (num >? ptr2_size))
    (buffer_oob_read_error "checked_memcmp");;
  memcmp ptr1 ptr2 num.

Definition checked_strncmp (str1 str1_size str2 str2_size count : Z) : M Z :=
  when ((str1_size <? count) || (str2_size <? count))
    (buffer_oob_read_error "checked_strncmp");;
  strncmp str1 str2 count.

Definition checked_memset (destination destination_size ch count : Z) : M Z :=
  when (count >? destination_size)
    (buffer_overflow_error "checked_memset");;
  memset destination ch count.

(** ** Violations

    The kinds of violation the handlers report, and what it means for a
    call to end in one. *)

Inductive violation : Type :=
| BufferOverflowSized (destination_size writing_size : Z)
| BufferOverflow
| OutOfBoundsRead
| IntegerOverflow
| NullPointer.

Definition handler (v : violation) (api_name : string) : M unit :=
  match v with
  | BufferOverflowSized destination_size writing_size =>
      buffer_overflow_error_with_size api_name destination_size writing_size
  | BufferOverflow => buffer_overflow_error api_name
  | OutOfBoundsRead => buffer_oob_read_error api_name
  | IntegerOverflow => integer_overflow_error api_name
  | NullPointer => null_pointer_error api_name
  end.

(** The message each kind of violation starts with. *)
Definition diagnostic (v : violation) : string :=
  match v with
  | BufferOverflowSized destination_size writing_size =>
      overflow_size_msg destination_size writing_size
  | BufferOverflow => "[err] Aborting due to potential buffer overflow in: "
  | OutOfBoundsRead =>
      "[err] Aborting due to potential buffer out-of-bounds read in: "
  | IntegerOverflow => "[err] Aborting due to potential integer overflow in: "
  | NullPointer => "[err] Aborting due to unexpected null pointer in: "
  end.

(** [out] is what calling the handler of [v] from [api_name] in state [st]
    leaves: the process aborted, in the handler's final state. *)
Definition raises {A} (v : violation) (api_name : string) (st : state)
    (out : outcome A) : Prop :=
  exists st', handler v api_name st = Aborted st' /\ out = Aborted st'.

(** The call ended (returned or aborted) with every byte of memory as it
    was in [st]. *)
Definition no_write {A} (st : state) (out : outcome A) : Prop :=
  match out with
  | Returned _ st' | Aborted st' => heap st' = heap st
  | Undefined => False
  end.

(** The bytes at [p] are the characters [l], none of them zero, followed by
    a terminator. *)
Definition c_string (st : state) (p : Z) (l : list Z) : Prop :=
  load_bytes (heap st) p (Z.of_nat (length l) + 1) = Some (l ++ [0])
  /\ forallb (fun c => negb (c =? 0)) l = true.

(** [st'] is [st] after [n] bytes were copied from [s] to [d]. *)
Definition copied (st : state) (d s n : Z) (st' : state) : Prop :=
  stderr st' = stderr st
  /\ length (heap st') = length (heap st)
  /\ (forall i, 0 <= i < n -> byte_at st' (d + i) = byte_at st (s + i))
  /\ (forall a, ~ (d <= a < d + n) -> byte_at st' a = byte_at st a).

(** [st'] is [st] after the string [sstr] was appended to the string [dstr]
    at [d]: the new string is there, terminated, and nothing outside the
    appended characters and the new terminator has changed. *)
Definition appended (st : state) (d : Z) (dstr sstr : list Z) (st' : state)
    : Prop :=
  c_string st' d (dstr ++ sstr)
  /\ stderr st' = stderr st
  /\ length (heap st') = length (heap st)
  /\ (forall a,
        ~ (d + Z.of_nat (length dstr) <= a
           <= d + Z.of_nat (length dstr) + Z.of_nat (length sstr)) ->
        byte_at st' a = byte_at st a).

(** How many characters of the string [l] a comparison bounded by [n]
    looks at: up to and including the terminator, at most [n]. *)
Fixpoint compared_span (n : nat) (l : list Z) : nat :=
  match n, l with
  | S n', c :: t => if c =? 0 then 1%nat else S (compared_span n' t)
  | _, _ => O
  end.

(** [r] is the verdict of an unsigned lexicographic comparison of [l1] with
    [l2]: zero exactly when they are equal, otherwise of the sign given by
    the first position where they differ. *)
Definition lex_verdict (r : Z) (l1 l2 : list Z) : Prop :=
  (r = 0 <-> l1 = l2)
  /\ (r <> 0 ->
      exists (i : nat) b1 b2,
        l1 !! i = Some b1 /\ l2 !! i = Some b2
        /\ take i l1 = take i l2 /\ b1 <> b2
        /\ (r < 0 <-> b1 < b2) /\ (0 < r <-> b2 < b1)).

(** What a function of the try family may leave: a return of one of the
    three codes, or undefined behaviour inside the primitive; never an
    abort. *)
Definition is_error_code (r : Z) : Prop :=
  r = 0 \/ r = ERR_POTENTIAL_BUFFER_OVERFLOW
  \/ r = ERR_POTENTIAL_INTEGER_OVERFLOW.

Definition returns_error_code (out : outcome Z) : Prop :=
  match out with
  | Returned r _ => is_error_code r
  | Aborted _ => False
  | Undefined => True
  end.

(** ** Frames and invariants *)

(** Every byte outside [lo, hi) is in [st'] as it was in [st], and memory
    has kept its size. *)
Definition unchanged_outside (st st' : state) (lo hi : Z) : Prop :=
  length (heap st') = length (heap st)
  /\ forall a, ~ (lo <= a < hi) -> byte_at st' a = byte_at st a.

(** The call printed nothing and did not abort. *)
Definition quiet {A} (st : state) (out : outcome A) : Prop :=
  match out with
  | Returned _ st' => stderr st' = stderr st
  | Aborted _ => False
  | Undefined => True
  end.

(** The discipline of the abort family: a call that returns has printed
    nothing; a call that aborts has written no memory and has printed one
    message, the name of the operation and a newline, in this order. *)
Definition diagnosed {A} (api_name : string) (st : state) (out : outcome A)
    : Prop :=
  match out with
  | Returned _ st' => stderr st' = stderr st
  | Aborted st' =>
      heap st' = heap st
      /\ exists msg, stderr st' = stderr st ++ [msg; api_name; newline]
  | Undefined => True
  end.

(** Every cell of memory holds the value of an [unsigned char]. *)
Definition byte_heap (st : state) : Prop :=
  Forall (fun b => 0 <= b < 256) (heap st).

(** Wherever the call ended, returning or aborting, [P] holds of the state
    it left. *)
Definition ends_in {A} (P : state -> Prop) (out : outcome A) : Prop :=
  match out with
  | Returned _ st' | Aborted st' => P st'
  | Undefined => True
  end.

(** The whole message of the size-annotated overflow, before [snprintf]
    cuts it to the buffer. *)
Definition overflow_size_text (destination_size writing_size : Z) : string :=
  "[err] Aborting due to potential buffer overflow, writing size "
    +:+ fmt_zu writing_size +:+ " to destination "
    +:+ fmt_zu destination_size +:+ " in: ".

(** ** Sample states

    A small memory: the string "foo" at address 1 in a buffer of 8 bytes,
    the string "bar" at address 9, two more bytes behind it. *)
Definition demo_state : state :=
  mkState [0; 102; 111; 111; 0; 7; 7; 7; 7; 98; 97; 114; 0; 9; 9] [].

(** A memory of a machine with a 16-bit [size_t]: one string of 32768
    characters at address 1. *)
Definition wrap_string : list Z := replicate (Z.to_nat 32768) 1.

Definition wrap_state : state :=
  mkState (0 :: wrap_string ++ [0]) [].

(** A memory with three strings: "a" at address 1 in a buffer of 8 bytes,
    "b" at address 9 and "cd" at address 11. *)
Definition pieces_state : state :=
  mkState [0; 97; 0; 7; 7; 7; 7; 7; 7; 98; 0; 99; 100; 0] [].

(** * Proofs *)

(** ** The monad and the handlers *)

Lemma bind_returned {A B} (c : M A) (k : A -> M B) st a st' :
  c st = Returned a st' -> (c ≫= k) st = k a st'.
Proof. intros H. unfold mbind, M_bind. now rewrite H. Qed.

Lemma bind_aborted {A B} (c : M A) (k : A -> M B) st st' :
  c st = Aborted st' -> (c ≫= k) st = Aborted st'.
Proof. intros H. unfold mbind, M_bind. now rewrite H. Qed.

Lemma emit_emit l1 l2 st : emit l2 (emit l1 st) = emit (l1 ++ l2) st.
Proof. unfold emit. simpl. now rewrite <- app_assoc. Qed.

Lemma error_with_prefix_msg_aborts api_name pre st :
  error_with_prefix_msg api_name pre st
  = Aborted (emit [pre; api_name; newline] st).
Proof.
  unfold error_with_prefix_msg, error_print, abort, mbind, M_bind.
  now rewrite !emit_emit.
Qed.

(** A handler never returns: it prints its message, the name of the
    operation and a newline, and aborts; it writes no memory. *)
Lemma handler_aborts v api_name st :
  handler v api_name st = Aborted (emit [diagnostic v; api_name; newline] st).
Proof.
  destruct v; exact (error_with_prefix_msg_aborts api_name _ st).
Qed.

Lemma raises_intro {B} v api_name (k : M B) st (out : outcome B) :
  out = (handler v api_name;; k) st -> @raises B v api_name st out.
Proof.
  intros ->. exists (emit [diagnostic v; api_name; newline] st).
  split; [apply handler_aborts|].
  apply bind_aborted, handler_aborts.
Qed.

Lemma raises_no_write {A} v api_name st (out : outcome A) :
  raises v api_name st out -> no_write st out.
Proof.
  intros (st' & H & ->). rewrite handler_aborts in H.
  injection H as <-. reflexivity.
Qed.

Lemma raises_diagnostic {A} v api_name st (out : outcome A) :
  raises v api_name st out ->
  out = Aborted (emit [diagnostic v; api_name; newline] st).
Proof.
  intros (st' & H & ->). rewrite handler_aborts in H. now injection H as <-.
Qed.

(** Two violations that end the same call have the same message. *)
Lemma raises_same_message {A} v1 v2 api_name st (out : outcome A) :
  raises v1 api_name st out -> raises v2 api_name st out ->
  diagnostic v1 = diagnostic v2.
Proof.
  intros H1 H2. apply raises_diagnostic in H1, H2.
  rewrite H1 in H2. injection H2 as H2.
  apply app_inv_head in H2. apply (f_equal head) in H2.
  now apply (inj Some) in H2.
Qed.

(** The size-annotated message is the message of no other violation. *)
Lemma sized_message_distinct a b v :
  diagnostic (BufferOverflowSized a b) = diagnostic v ->
  exists a' b', v = BufferOverflowSized a' b'.
Proof.
  intros H. destruct v as [a' b'| | | |]; [now exists a', b'| | | |];
    exfalso.
  - apply (f_equal (String.get 47)) in H. cbn -[fmt_zu] in H. discriminate H.
  - apply (f_equal (String.get 40)) in H. cbn -[fmt_zu] in H. discriminate H.
  - apply (f_equal (String.get 32)) in H. cbn -[fmt_zu] in H. discriminate H.
  - apply (f_equal (String.get 22)) in H. cbn -[fmt_zu] in H. discriminate H.
Qed.

(** ** Memory *)

Lemma in_bounds_true h p n :
  in_bounds h p n = true <-> 0 < p /\ 0 <= n /\ p + n <= Z.of_nat (length h).
Proof. unfold in_bounds. lia. Qed.

Lemma in_bounds_weaken h p n m :
  in_bounds h p n = true -> 0 <= m <= n -> in_bounds h p m = true.
Proof. rewrite !in_bounds_true. lia. Qed.

Lemma byte_at_nat st (a : Z) :
  0 <= a -> byte_at st a = heap st !! Z.to_nat a.
Proof. intros H. unfold byte_at. destruct (0 <=? a) eqn:E; [done | lia]. Qed.

Lemma byte_at_neg st (a : Z) : a < 0 -> byte_at st a = None.
Proof. intros H. unfold byte_at. destruct (0 <=? a) eqn:E; [lia | done]. Qed.

Lemma load_bytes_length h p n bs :
  load_bytes h p n = Some bs -> length bs = Z.to_nat n.
Proof.
  unfold load_bytes. destruct (in_bounds h p n) eqn:E; [|done].
  apply in_bounds_true in E. intros [= <-].
  rewrite length_take, length_drop. lia.
Qed.

Lemma load_bytes_lookup h p n bs (i : nat) :
  load_bytes h p n = Some bs -> (i < Z.to_nat n)%nat ->
  bs !! i = h !! (Z.to_nat p + i)%nat.
Proof.
  unfold load_bytes. destruct (in_bounds h p n); [|done].
  intros [= <-] Hi. now rewrite lookup_take_lt, lookup_drop.
Qed.

Lemma load_bytes_in_bounds h p n :
  in_bounds h p n = true ->
  load_bytes h p n = Some (take (Z.to_nat n) (drop (Z.to_nat p) h)).
Proof. intros H. unfold load_bytes. now rewrite H. Qed.

Lemma load_bytes_Some h p n bs :
  load_bytes h p n = Some bs -> in_bounds h p n = true.
Proof. unfold load_bytes. now destruct (in_bounds h p n). Qed.

Lemma store_bytes_in_bounds h p bs :
  in_bounds h p (Z.of_nat (length bs)) = true ->
  store_bytes h p bs = Some (list_inserts (Z.to_nat p) bs h).
Proof. intros H. unfold store_bytes. now rewrite H. Qed.

(** A state whose heap is [h'], the result of storing [bs] at [p]. *)
Lemma stored_bytes st p bs :
  in_bounds (heap st) p (Z.of_nat (length bs)) = true ->
  let st' := set_heap (list_inserts (Z.to_nat p) bs (heap st)) st in
  length (heap st') = length (heap st)
  /\ (forall i, 0 <= i < Z.of_nat (length bs) ->
        byte_at st' (p + i) = bs !! Z.to_nat i)
  /\ (forall a, ~ (p <= a < p + Z.of_nat (length bs)) ->
        byte_at st' a = byte_at st a).
Proof.
  intros Hb st'. apply in_bounds_true in Hb. subst st'. simpl.
  split; [apply length_inserts|]. split.
  - intros i Hi. rewrite byte_at_nat by lia. simpl.
    rewrite list_lookup_inserts by lia. f_equal. lia.
  - intros a Ha. destruct (Z.lt_ge_cases a 0) as [Hn|Hn].
    { now rewrite !byte_at_neg. }
    rewrite !byte_at_nat by lia. simpl.
    destruct (Z.lt_ge_cases a p).
    + apply list_lookup_inserts_lt. lia.
    + apply list_lookup_inserts_ge. lia.
Qed.

Lemma memcpy_copied st d s n :
  in_bounds (heap st) d n = true ->
  in_bounds (heap st) s n = true ->
  regions_overlap d s n = false ->
  exists st', memcpy d s n st = Returned d st' /\ copied st d s n st'.
Proof.
  intros Hd Hs Ho. unfold memcpy.
  rewrite (load_bytes_in_bounds _ _ _ Hs), Ho.
  set (bs := take (Z.to_nat n) (drop (Z.to_nat s) (heap st))).
  assert (Hlen : length bs = Z.to_nat n).
  { apply (load_bytes_length (heap st) s n).
    now apply load_bytes_in_bounds. }
  assert (Hn : 0 <= n) by (apply in_bounds_true in Hd; lia).
  assert (Hb : in_bounds (heap st) d (Z.of_nat (length bs)) = true).
  { rewrite Hlen, Z2Nat.id by lia. exact Hd. }
  rewrite (store_bytes_in_bounds _ _ _ Hb).
  eexists. split; [reflexivity|].
  destruct (stored_bytes st d bs Hb) as (Hl & Hin & Hout).
  apply in_bounds_true in Hs.
  split; [reflexivity|]. split; [exact Hl|]. split.
  - intros i Hi. rewrite Hin by lia.
    rewrite (load_bytes_lookup (heap st) s n) by
      (try apply load_bytes_in_bounds, in_bounds_true; lia).
    rewrite byte_at_nat by lia. f_equal. lia.
  - intros a Ha. apply Hout. lia.
Qed.

(** [memcpy] returns or is undefined: it never aborts. *)
Lemma memcpy_not_aborted d s n st st' : memcpy d s n st <> Aborted st'.
Proof.
  unfold memcpy. destruct (load_bytes _ s n); [|done].
  destruct (regions_overlap d s n); [done|].
  now destruct (store_bytes _ d _).
Qed.

(** ** Guarded copy *)

Lemma bind_mret_returned {A B} (c : M A) (b : B) st a st' :
  c st = Returned a st' -> (c;; mret b) st = Returned b st'.
Proof. intros H. now rewrite (bind_returned _ _ _ _ _ H). Qed.

(** C1 (as amended): with [count <= destination_size], both pointers
    non-null, the destination's capacity and the source's [count] bytes in
    memory and the two regions apart, [checked_memcpy] and
    [try_checked_memcpy] copy the first [count] source bytes verbatim into
    the destination and change no other byte; the first returns the
    destination, the second 0.  The robust variants do the same when
    moreover [count <= source_size]. *)
Theorem C1_copy_within_capacity st d dsz s n :
  0 <= n <= dsz ->
  in_bounds (heap st) d dsz = true ->
  in_bounds (heap st) s n = true ->
  regions_overlap d s n = false ->
  exists st',
    copied st d s n st'
    /\ checked_memcpy d dsz s n st = Returned d st'
    /\ try_checked_memcpy d dsz s n st = Returned 0 st'
    /\ (forall ssz, n <= ssz ->
          checked_memcpy_robust d dsz s ssz n st = Returned d st'
          /\ try_checked_memcpy_robust d dsz s ssz n st = Returned 0 st').
Proof.
  intros Hn Hd Hs Ho.
  destruct (memcpy_copied st d s n) as (st' & Hm & Hc);
    [eapply in_bounds_weaken; [exact Hd | lia] | exact Hs | exact Ho |].
  exists st'. split; [exact Hc|].
  apply in_bounds_true in Hd, Hs.
  assert (Hlt : (dsz <? n) = false) by lia.
  assert (Hnull : (s =? BAD_PTR) || (d =? BAD_PTR) = false)
    by (unfold BAD_PTR; lia).
  repeat split.
  - unfold checked_memcpy. rewrite Hlt, Hnull. exact Hm.
  - unfold try_checked_memcpy. rewrite Hlt.
    now apply bind_mret_returned with (a := d).
  - unfold checked_memcpy_robust.
    replace (ssz <? n) with false by lia. rewrite Hlt. exact Hm.
  - unfold try_checked_memcpy_robust.
    replace (ssz <? n) with false by lia. rewrite Hlt.
    now apply bind_mret_returned with (a := d).
Qed.

Lemma C1_copy_within_capacity_witness :
  exists st',
    copied demo_state 1 9 3 st'
    /\ checked_memcpy 1 8 9 3 demo_state = Returned 1 st'
    /\ try_checked_memcpy 1 8 9 3 demo_state = Returned 0 st'
    /\ (forall ssz, 3 <= ssz ->
          checked_memcpy_robust 1 8 9 ssz 3 demo_state = Returned 1 st'
          /\ try_checked_memcpy_robust 1 8 9 ssz 3 demo_state = Returned 0 st').
Proof.
  apply (C1_copy_within_capacity demo_state 1 8 9 3);
    [lia | reflexivity | reflexivity | reflexivity].
Defined.

(** C1 as stated fails: with [count <= destination_size] the robust copies
    still refuse a [count] above the source's capacity, and
    [checked_memcpy] aborts on a null pointer even for an empty copy. *)
Lemma C1_counterexample :
  3 <= 4
  /\ raises BufferOverflow "checked_memcpy_robust" demo_state
       (checked_memcpy_robust 1 4 9 2 3 demo_state)
  /\ try_checked_memcpy_robust 1 4 9 2 3 demo_state
     = Returned ERR_POTENTIAL_BUFFER_OVERFLOW demo_state
  /\ ERR_POTENTIAL_BUFFER_OVERFLOW <> 0
  /\ 0 <= 0
  /\ raises NullPointer "checked_memcpy" demo_state
       (checked_memcpy BAD_PTR 0 9 0 demo_state).
Proof.
  split; [lia|]. split.
  { apply (raises_intro BufferOverflow _ (memcpy 1 9 3)). reflexivity. }
  split; [reflexivity|]. split; [discriminate|]. split; [lia|].
  apply (raises_intro NullPointer _ (memcpy BAD_PTR 9 0)). reflexivity.
Qed.

(** Eight bytes of room, ten to write: the diagnostic names the operation
    and both sizes, and the memory is as it was. *)
Example copy_overflow_diagnostic :
  checked_memcpy 1 8 9 10 demo_state
  = Aborted
      (mkState (heap demo_state)
         ["[err] Aborting due to potential buffer overflow, writing size 10 to destination 8 in: ";
          "checked_memcpy"; newline])
  /\ try_checked_memcpy 1 8 9 10 demo_state = Returned 34 demo_state.
Proof. split; reflexivity. Qed.

(** C2: with [count > destination_size], [checked_memcpy] ends in the
    size-annotated buffer-overflow violation with no byte of memory written,
    and [try_checked_memcpy] returns the buffer-overflow code in the very
    state it was called in; so does [try_checked_memcpy_robust] whichever of
    its two capacities is the insufficient one. *)
Theorem C2_copy_beyond_capacity st d dsz s n :
  dsz < n ->
  raises (BufferOverflowSized dsz n) "checked_memcpy" st
    (checked_memcpy d dsz s n st)
  /\ no_write st (checked_memcpy d dsz s n st)
  /\ try_checked_memcpy d dsz s n st
     = Returned ERR_POTENTIAL_BUFFER_OVERFLOW st
  /\ (forall other,
        try_checked_memcpy_robust d dsz s other n st
        = Returned ERR_POTENTIAL_BUFFER_OVERFLOW st
        /\ try_checked_memcpy_robust d other s dsz n st
          = Returned ERR_POTENTIAL_BUFFER_OVERFLOW st).
Proof.
  intros Hlt. assert (Hb : (dsz <? n) = true) by lia.
  assert (Hr : raises (BufferOverflowSized dsz n) "checked_memcpy" st
                 (checked_memcpy d dsz s n st)).
  { unfold checked_memcpy. rewrite Hb. now eapply raises_intro. }
  split; [exact Hr|]. split; [eapply raises_no_write, Hr|].
  split; [unfold try_checked_memcpy; now rewrite Hb|].
  intros other. unfold try_checked_memcpy_robust. rewrite Hb.
  now rewrite orb_true_r.
Qed.

Lemma C2_copy_beyond_capacity_witness :
  raises (BufferOverflowSized 8 10) "checked_memcpy" demo_state
    (checked_memcpy 1 8 9 10 demo_state)
  /\ no_write demo_state (checked_memcpy 1 8 9 10 demo_state)
  /\ try_checked_memcpy 1 8 9 10 demo_state
     = Returned ERR_POTENTIAL_BUFFER_OVERFLOW demo_state
  /\ (forall other,
        try_checked_memcpy_robust 1 8 9 other 10 demo_state
        = Returned ERR_POTENTIAL_BUFFER_OVERFLOW demo_state
        /\ try_checked_memcpy_robust 1 other 9 8 10 demo_state
          = Returned ERR_POTENTIAL_BUFFER_OVERFLOW demo_state).
Proof. apply (C2_copy_beyond_capacity demo_state 1 8 9 10). lia. Defined.

(** ** The size-annotated message *)

Lemma string_length_app s1 s2 :
  String.length (s1 +:+ s2) = (String.length s1 + String.length s2)%nat.
Proof.
  induction s1 as [|a s1 IH]; [reflexivity|].
  change (String a s1 +:+ s2) with (String a (s1 +:+ s2)).
  simpl. now rewrite IH.
Qed.

Lemma substring_whole s : forall n,
  (String.length s <= n)%nat -> substring 0 n s = s.
Proof.
  induction s as [|a s IH]; intros [|n] H; simpl in *; try reflexivity;
    [lia|].
  rewrite IH; [reflexivity | lia].
Qed.

Lemma pretty_N_go_length k : forall x s,
  (x < 10 ^ N.of_nat k)%N ->
  (String.length (pretty_N_go x s) <= k + String.length s)%nat.
Proof.
  induction k as [|k IH]; intros x s Hx.
  - replace x with 0%N by (simpl in Hx; lia). rewrite pretty_N_go_0. lia.
  - destruct (decide (x = 0)%N) as [->|Hne];
      [rewrite pretty_N_go_0; lia|].
    rewrite pretty_N_go_step by lia.
    etransitivity; [apply IH|simpl; lia].
    rewrite Nat2N.inj_succ, N.pow_succ_r' in Hx.
    apply N.Div0.div_lt_upper_bound. exact Hx.
Qed.

Lemma fmt_zu_length z :
  0 <= z < 2 ^ 64 -> (String.length (fmt_zu z) <= 20)%nat.
Proof.
  intros Hz. unfold fmt_zu, pretty, pretty_N.
  destruct (decide (Z.to_N z = 0%N)) as [_|Hne]; [simpl; lia|].
  pose proof (pretty_N_go_length 20 (Z.to_N z) "") as H.
  simpl String.length in H. rewrite Nat.add_0_r in H. apply H.
  change (10 ^ N.of_nat 20)%N with 100000000000000000000%N.
  change (2 ^ 64) with 18446744073709551616 in Hz. lia.
Qed.

Lemma overflow_size_msg_uncut destination_size writing_size :
  0 <= destination_size < 2 ^ 64 ->
  0 <= writing_size < 2 ^ 64 ->
  overflow_size_msg destination_size writing_size
  = overflow_size_text destination_size writing_size.
Proof.
  intros Hd Hw.
  pose proof (fmt_zu_length _ Hd) as Ld. pose proof (fmt_zu_length _ Hw) as Lw.
  unfold overflow_size_msg, snprintf_keep. apply substring_whole.
  fold (overflow_size_text destination_size writing_size).
  unfold overflow_size_text. rewrite !string_length_app.
  simpl String.length. lia.
Qed.

Lemma size_wrap_64 w z :
  0 < 2 ^ w -> w <= 64 -> 0 <= size_wrap w z < 2 ^ 64.
Proof.
  intros Hpos Hw. unfold size_wrap.
  pose proof (Z.mod_pos_bound z (2 ^ w) Hpos) as Hm.
  assert (0 <= w) by (destruct (Z.lt_ge_cases w 0) as [Hn|Hn]; [|exact Hn];
                      rewrite Z.pow_neg_r in Hpos by exact Hn; lia).
  pose proof (Z.pow_le_mono_r 2 w 64 ltac:(lia) Hw). lia.
Qed.

(** ** Guarded offset copy *)

Lemma checked_memcpy_offset_passes w st d dsz off s n :
  (dsz <? n) || (off >=? dsz) = false ->
  checked_memcpy_offset w d dsz off s n st
  = (memcpy (d + off) s n;; mret d) st.
Proof. intros H. unfold checked_memcpy_offset. now rewrite H. Qed.

Lemma checked_memcpy_offset_refuses w st d dsz off s n :
  (dsz <? n) || (off >=? dsz) = true ->
  raises (BufferOverflowSized (size_sub w dsz off) n) "checked_memcpy_offset"
    st (checked_memcpy_offset w d dsz off s n st).
Proof.
  intros H. unfold checked_memcpy_offset. rewrite H.
  now eapply raises_intro.
Qed.

Lemma memcpy_then_ret_not_aborted {B} d s n (b : B) st st' :
  (memcpy d s n;; mret b) st <> Aborted st'.
Proof.
  unfold mbind, M_bind. pose proof (memcpy_not_aborted d s n st) as H.
  destruct (memcpy d s n st); [discriminate | | discriminate].
  intros [= ->]. now apply (H st').
Qed.

Lemma size_sub_value w a b :
  is_size_t w a -> is_size_t w b ->
  size_sub w a b = if b <=? a then a - b else 2 ^ w + a - b.
Proof.
  unfold is_size_t, size_sub, size_wrap. intros Ha Hb.
  destruct (b <=? a) eqn:E.
  - apply Z.mod_small. lia.
  - rewrite <- (Z.mod_add _ 1) by lia. rewrite Z.mod_small; lia.
Qed.

Lemma checked_memcpy_null st d dsz s n :
  n <= dsz -> s = BAD_PTR \/ d = BAD_PTR ->
  raises NullPointer "checked_memcpy" st (checked_memcpy d dsz s n st).
Proof.
  intros Hn Hp. unfold checked_memcpy.
  replace (dsz <? n) with false by lia.
  replace ((s =? BAD_PTR) || (d =? BAD_PTR)) with true by lia.
  now apply (raises_intro NullPointer _ (memcpy d s n)).
Qed.

(** C3: the validation of [checked_memcpy_offset] lets through a copy that
    ends behind the declared capacity.  Here the destination is the 4-byte
    buffer at address 1; [count = 3 <= 4] and [offset = 3 < 4], the call
    returns, and the bytes at positions 4 and 5 of the destination, past its
    capacity, now hold the second and third source byte. *)
Theorem C3_offset_copy_leaves_capacity w :
  exists st d dsz off s n st',
    n <= dsz /\ off < dsz /\ off + n > dsz
    /\ in_bounds (heap st) d dsz = true
    /\ checked_memcpy_offset w d dsz off s n st = Returned d st'
    /\ forall i, 1 <= i < n ->
         dsz <= off + i
         /\ byte_at st' (d + (off + i)) = byte_at st (s + i)
         /\ byte_at st' (d + (off + i)) <> byte_at st (d + (off + i)).
Proof.
  exists demo_state, 1, 4, 3, 9, 3.
  eexists. split; [lia|]. split; [lia|]. split; [lia|].
  split; [reflexivity|]. split; [reflexivity|].
  intros i Hi. assert (i = 1 \/ i = 2) as [-> | ->] by lia;
    (split; [lia|]; split; [reflexivity | discriminate]).
Qed.

(** C4: [checked_memcpy_offset] aborts exactly when [count] exceeds the
    capacity or [offset >= capacity]; it then reports the buffer-overflow
    violation with [count] and, as available size, [capacity - offset] in
    [size_t] arithmetic, which is [2^w + capacity - offset] when the offset
    exceeds the capacity.  What reaches the error stream on that path is the
    message, the name of the operation and a newline, the message being the
    text "... writing size <count> to destination <available> in: " with
    the available size [(capacity - offset) mod 2^w] in decimal, cut by
    [snprintf] to 127 characters and not cut at all when [size_t] has at
    most 64 bits.  Otherwise the function goes straight to [memcpy],
    whatever the pointers: it never reports a null pointer, where
    [checked_memcpy] does. *)
Theorem C4_offset_copy_validation w st d dsz off s n :
  is_size_t w dsz -> is_size_t w off ->
  let out := checked_memcpy_offset w d dsz off s n st in
  ((exists st', out = Aborted st') <-> (dsz < n \/ off >= dsz))
  /\ (dsz < n \/ off >= dsz ->
        raises (BufferOverflowSized (size_sub w dsz off) n)
          "checked_memcpy_offset" st out
        /\ no_write st out)
  /\ size_sub w dsz off = (if off <=? dsz then dsz - off else 2 ^ w + dsz - off)
  /\ (~ (dsz < n \/ off >= dsz) -> out = (memcpy (d + off) s n;; mret d) st)
  /\ ~ raises NullPointer "checked_memcpy_offset" st out
  /\ (n <= dsz -> s = BAD_PTR \/ d = BAD_PTR ->
        raises NullPointer "checked_memcpy" st (checked_memcpy d dsz s n st))
  /\ (dsz < n \/ off >= dsz ->
        exists msg,
          out = Aborted (mkState (heap st)
                           (stderr st
                              ++ [msg; "checked_memcpy_offset"; newline]))
          /\ msg = snprintf_keep 128
                     ("[err] Aborting due to potential buffer overflow, writing size "
                    +:+ fmt_zu n +:+ " to destination "
                    +:+ fmt_zu ((dsz - off) mod 2 ^ w) +:+ " in: ")
          /\ (w <= 64 -> is_size_t w n ->
              msg = ("[err] Aborting due to potential buffer overflow, writing size "
                    +:+ fmt_zu n +:+ " to destination "
                    +:+ fmt_zu ((dsz - off) mod 2 ^ w) +:+ " in: "))).
Proof.
  intros Hdsz Hoff out. subst out.
  destruct ((dsz <? n) || (off >=? dsz)) eqn:Hc.
  - pose proof (checked_memcpy_offset_refuses w st d dsz off s n Hc) as Hr.
    split.
    { split; [lia|]. intros _. destruct Hr as (st' & _ & ->). now exists st'. }
    split; [intros _; split; [exact Hr | eapply raises_no_write, Hr]|].
    split; [now apply size_sub_value|].
    split; [lia|]. split; [|split].
    + intros Hnull.
      destruct (sized_message_distinct (size_sub w dsz off) n NullPointer)
        as (a' & b' & H);
        [exact (raises_same_message _ _ _ _ _ Hr Hnull) | discriminate H].
    + intros Hn Hp. now apply checked_memcpy_null.
    + intros _. exists (overflow_size_msg (size_sub w dsz off) n).
      split; [exact (raises_diagnostic _ _ _ _ Hr)|].
      split; [reflexivity|]. intros Hw Hn.
      apply (overflow_size_msg_uncut (size_sub w dsz off) n).
      * apply size_wrap_64; [unfold is_size_t in Hdsz; lia | exact Hw].
      * unfold is_size_t in Hn.
        pose proof (size_wrap_64 w 0 ltac:(lia) Hw) as H0.
        assert (2 ^ w <= 2 ^ 64)
          by (apply Z.pow_le_mono_r; [lia|exact Hw]).
        lia.
  - pose proof (checked_memcpy_offset_passes w st d dsz off s n Hc) as Hp.
    rewrite Hp. split.
    { split; [|lia]. intros (st' & H).
      now apply memcpy_then_ret_not_aborted in H. }
    split; [lia|]. split; [now apply size_sub_value|].
    split; [reflexivity|]. split; [|split].
    + intros (st' & _ & H). now apply memcpy_then_ret_not_aborted in H.
    + intros Hn Hq. now apply checked_memcpy_null.
    + lia.
Qed.

Lemma C4_offset_copy_validation_witness :
  let out := checked_memcpy_offset 64 1 4 5 9 3 demo_state in
  ((exists st', out = Aborted st') <-> (4 < 3 \/ 5 >= 4))
  /\ (4 < 3 \/ 5 >= 4 ->
        raises (BufferOverflowSized (size_sub 64 4 5) 3)
          "checked_memcpy_offset" demo_state out
        /\ no_write demo_state out)
  /\ size_sub 64 4 5 = (if 5 <=? 4 then 4 - 5 else 2 ^ 64 + 4 - 5)
  /\ (~ (4 < 3 \/ 5 >= 4) -> out = (memcpy (1 + 5) 9 3;; mret 1) demo_state)
  /\ ~ raises NullPointer "checked_memcpy_offset" demo_state out
  /\ (3 <= 4 -> 9 = BAD_PTR \/ 1 = BAD_PTR ->
        raises NullPointer "checked_memcpy" demo_state
          (checked_memcpy 1 4 9 3 demo_state))
  /\ (4 < 3 \/ 5 >= 4 ->
        exists msg,
          out = Aborted (mkState (heap demo_state)
                           (stderr demo_state
                              ++ [msg; "checked_memcpy_offset"; newline]))
          /\ msg = snprintf_keep 128
                     ("[err] Aborting due to potential buffer overflow, writing size "
                    +:+ fmt_zu 3 +:+ " to destination "
                    +:+ fmt_zu ((4 - 5) mod 2 ^ 64) +:+ " in: ")
          /\ (64 <= 64 -> is_size_t 64 3 ->
              msg = ("[err] Aborting due to potential buffer overflow, writing size "
                    +:+ fmt_zu 3 +:+ " to destination "
                    +:+ fmt_zu ((4 - 5) mod 2 ^ 64) +:+ " in: "))).
Proof.
  apply (C4_offset_copy_validation 64 demo_state 1 4 5 9 3);
    unfold is_size_t; simpl; lia.
Defined.

(** An offset behind the capacity: the available size printed is
    [4 - 5] wrapped around on 64 bits. *)
Example offset_copy_wrapped_diagnostic :
  checked_memcpy_offset 64 1 4 5 9 3 demo_state
  = Aborted
      (mkState (heap demo_state)
         ["[err] Aborting due to potential buffer overflow, writing size 3 to destination 18446744073709551615 in: ";
          "checked_memcpy_offset"; newline])
  /\ checked_memcpy_offset 64 1 8 2 9 10 demo_state
     = Aborted
         (mkState (heap demo_state)
            ["[err] Aborting due to potential buffer overflow, writing size 10 to destination 6 in: ";
             "checked_memcpy_offset"; newline]).
Proof. split; reflexivity. Qed.

(** ** Strings in memory *)

Lemma load_bytes_byte_at st p n bs :
  load_bytes (heap st) p n = Some bs ->
  forall i, 0 <= i < n -> byte_at st (p + i) = bs !! Z.to_nat i.
Proof.
  intros H i Hi. pose proof (load_bytes_Some _ _ _ _ H) as Hb.
  apply in_bounds_true in Hb. rewrite byte_at_nat by lia.
  rewrite (load_bytes_lookup _ _ _ _ (Z.to_nat i) H) by lia.
  f_equal. lia.
Qed.

Lemma load_bytes_from_byte_at st p n bs :
  in_bounds (heap st) p n = true ->
  length bs = Z.to_nat n ->
  (forall i, 0 <= i < n -> byte_at st (p + i) = bs !! Z.to_nat i) ->
  load_bytes (heap st) p n = Some bs.
Proof.
  intros Hb Hl Hbs. rewrite (load_bytes_in_bounds _ _ _ Hb). f_equal.
  apply in_bounds_true in Hb. apply list_eq. intros i.
  destruct (decide (i < Z.to_nat n)%nat) as [Hi|Hi].
  - rewrite lookup_take_lt, lookup_drop by lia.
    specialize (Hbs (Z.of_nat i) ltac:(lia)).
    rewrite byte_at_nat in Hbs by lia.
    rewrite Nat2Z.id in Hbs. rewrite <- Hbs. f_equal. lia.
  - rewrite lookup_take_ge by lia. symmetry. apply lookup_ge_None. lia.
Qed.

Lemma strlen_bytes_app l rest :
  forallb (fun c => negb (c =? 0)) l = true ->
  strlen_bytes (l ++ 0 :: rest) = Some (Z.of_nat (length l)).
Proof.
  induction l as [|c l IH]; simpl; [reflexivity|].
  intros H. apply andb_true_iff in H as [Hc Hl].
  destruct (c =? 0); [discriminate|].
  rewrite (IH Hl). simpl. f_equal. lia.
Qed.

Lemma strlen_c_string st p l :
  c_string st p l -> strlen p st = Returned (Z.of_nat (length l)) st.
Proof.
  intros [Hload Hnz]. pose proof (load_bytes_Some _ _ _ _ Hload) as Hb.
  unfold strlen. rewrite (in_bounds_weaken _ _ _ 0 Hb) by lia.
  rewrite (load_bytes_in_bounds _ _ _ Hb) in Hload.
  injection Hload as Hload.
  rewrite <- (take_drop (Z.to_nat (Z.of_nat (length l) + 1))
                (drop (Z.to_nat p) (heap st))).
  rewrite Hload, <- app_assoc. simpl.
  now rewrite strlen_bytes_app.
Qed.

(** ** [size_t] sums *)

Lemma size_add_exact w a b :
  0 <= a -> 0 <= b -> a + b < 2 ^ w -> size_add w a b = a + b.
Proof. intros. unfold size_add, size_wrap. apply Z.mod_small. lia. Qed.

Lemma size_add_wrapped w a b :
  is_size_t w a -> is_size_t w b -> 2 ^ w <= a + b ->
  size_add w a b = a + b - 2 ^ w.
Proof.
  unfold is_size_t, size_add, size_wrap. intros Ha Hb Hw.
  rewrite <- (Z.mod_add _ (-1)) by lia. apply Z.mod_small. lia.
Qed.

(** The sum of two [size_t] is below an operand exactly when it wrapped,
    and then it is below both. *)
Lemma size_add_wraps_iff w a b :
  is_size_t w a -> is_size_t w b ->
  (size_add w a b < a <-> 2 ^ w <= a + b)
  /\ (size_add w a b < b <-> 2 ^ w <= a + b).
Proof.
  intros Ha Hb. destruct (Z.lt_ge_cases (a + b) (2 ^ w)) as [Hs|Hs].
  - rewrite size_add_exact by (unfold is_size_t in *; lia).
    unfold is_size_t in *. lia.
  - rewrite size_add_wrapped by assumption. unfold is_size_t in *. lia.
Qed.

Lemma size_pred w a : is_size_t w a -> a <> 0 -> size_sub w a 1 = a - 1.
Proof.
  unfold is_size_t, size_sub, size_wrap. intros. apply Z.mod_small. lia.
Qed.

(** ** Guarded concatenate *)

Lemma checked_strcat_steps w st d dsz s dlen slen :
  strlen d st = Returned dlen st ->
  strlen s st = Returned slen st ->
  checked_strcat w d dsz s st
  = (when (dsz =? 0)
       (buffer_overflow_error_with_size "checked_strcat" dsz
          (size_add w dlen slen));;
     when (size_add w dlen slen <? dlen)
       (integer_overflow_error "checked_strcat");;
     when (size_sub w dsz 1 <? size_add w dlen slen)
       (buffer_overflow_error_with_size "checked_strcat"
          (size_sub w dsz 1) (size_add w dlen slen));;
     memcpy (d + dlen) s slen;;
     store_char (d + dlen + slen) 0;;
     mret d) st.
Proof.
  intros Hd Hs. unfold checked_strcat.
  rewrite (bind_returned _ _ _ _ _ Hd), (bind_returned _ _ _ _ _ Hs).
  reflexivity.
Qed.

Lemma try_checked_strcat_steps w st d dsz s dlen slen :
  strlen d st = Returned dlen st ->
  strlen s st = Returned slen st ->
  try_checked_strcat w d dsz s st
  = if dsz =? 0 then Returned ERR_POTENTIAL_BUFFER_OVERFLOW st
    else if size_add w dlen slen <? dlen
    then Returned ERR_POTENTIAL_INTEGER_OVERFLOW st
    else if size_sub w dsz 1 <? size_add w dlen slen
    then Returned ERR_POTENTIAL_BUFFER_OVERFLOW st
    else (memcpy (d + dlen) s slen;;
          store_char (d + dlen + slen) 0;;
          mret 0) st.
Proof.
  intros Hd Hs. unfold try_checked_strcat.
  destruct (dsz =? 0); [reflexivity|].
  rewrite (bind_returned _ _ _ _ _ Hd), (bind_returned _ _ _ _ _ Hs).
  destruct (size_add w dlen slen <? dlen); [reflexivity|].
  now destruct (size_sub w dsz 1 <? size_add w dlen slen).
Qed.

(** The copy and the terminator that end both concatenations. *)
Lemma append_tail st d dsz s dstr sstr :
  let dlen := Z.of_nat (length dstr) in
  let slen := Z.of_nat (length sstr) in
  c_string st d dstr ->
  c_string st s sstr ->
  in_bounds (heap st) d dsz = true ->
  dlen + slen <= dsz - 1 ->
  regions_overlap (d + dlen) s slen = false ->
  exists st',
    appended st d dstr sstr st'
    /\ forall B (r : B),
         (memcpy (d + dlen) s slen;;
          store_char (d + dlen + slen) 0;;
          mret r) st = Returned r st'.
Proof.
  intros dlen slen [Hdl Hdz] [Hsl Hsz] Hd Hfit Ho.
  pose proof (load_bytes_Some _ _ _ _ Hsl) as Hsb.
  pose proof Hd as Hd'. apply in_bounds_true in Hd'.
  destruct (memcpy_copied st (d + dlen) s slen) as (st1 & Hm & Hc);
    [apply in_bounds_true; lia
    | eapply in_bounds_weaken; [exact Hsb | lia] | exact Ho |].
  destruct Hc as (Herr1 & Hlen1 & Hin1 & Hout1).
  assert (Hb1 : in_bounds (heap st1) (d + dlen + slen)
                  (Z.of_nat (length [to_uchar 0])) = true).
  { apply in_bounds_true. rewrite Hlen1. simpl. lia. }
  destruct (stored_bytes st1 _ _ Hb1) as (Hlen2 & Hin2 & Hout2).
  set (st2 := set_heap _ st1) in *.
  exists st2. split.
  - split; [|split; [exact Herr1 | split; [congruence|]]].
    + split.
      * apply load_bytes_from_byte_at.
        { apply in_bounds_true. rewrite Hlen2, Hlen1, length_app. lia. }
        { rewrite !length_app. simpl. lia. }
        intros i Hi. rewrite length_app in Hi.
        destruct (Z.lt_ge_cases i dlen) as [H1|H1].
        { rewrite Hout2 by (simpl; lia). rewrite Hout1 by lia.
          rewrite (load_bytes_byte_at _ _ _ _ Hdl) by lia.
          rewrite <- !app_assoc.
          rewrite !lookup_app_l by (rewrite ?length_app; simpl; lia).
          reflexivity. }
        destruct (Z.lt_ge_cases i (dlen + slen)) as [H2|H2].
        { rewrite Hout2 by (simpl; lia).
          replace (d + i) with (d + dlen + (i - dlen)) by lia.
          rewrite Hin1 by lia.
          rewrite (load_bytes_byte_at _ _ _ _ Hsl) by lia.
          rewrite <- (app_assoc dstr), (lookup_app_r dstr) by lia.
          f_equal. lia. }
        { replace (d + i) with (d + dlen + slen + 0) by lia.
          rewrite Hin2 by (simpl; lia).
          rewrite lookup_app_r by (rewrite length_app; lia).
          rewrite length_app.
          replace (Z.to_nat i - (length dstr + length sstr))%nat
            with O by lia.
          reflexivity. }
      * rewrite forallb_app. now rewrite Hdz, Hsz.
    + intros a Ha. rewrite Hout2 by (simpl; lia). apply Hout1. lia.
  - intros B r.
    rewrite (bind_returned _ _ _ _ _ Hm).
    unfold store_char at 1. unfold mbind at 1, M_bind at 1.
    now rewrite (store_bytes_in_bounds _ _ _ Hb1).
Qed.

(** C5: for null-terminated strings [dstr] at the destination and [sstr]
    at the source, a non-zero capacity with
    [strlen(dest) + strlen(src) <= capacity - 1], the destination's capacity
    in memory and the appended region apart from the source, both
    concatenations leave at the destination [dstr] followed by [sstr]
    followed by one terminator; [checked_strcat] returns the destination and
    [try_checked_strcat] returns 0. *)
Theorem C5_concatenate_fits w st d dsz s dstr sstr :
  is_size_t w dsz ->
  c_string st d dstr ->
  c_string st s sstr ->
  in_bounds (heap st) d dsz = true ->
  regions_overlap (d + Z.of_nat (length dstr)) s (Z.of_nat (length sstr))
  = false ->
  0 < dsz ->
  Z.of_nat (length dstr) + Z.of_nat (length sstr) <= dsz - 1 ->
  exists st',
    appended st d dstr sstr st'
    /\ checked_strcat w d dsz s st = Returned d st'
    /\ try_checked_strcat w d dsz s st = Returned 0 st'.
Proof.
  intros Hsz Hd Hs Hb Ho Hpos Hfit.
  destruct (append_tail st d dsz s dstr sstr Hd Hs Hb Hfit Ho)
    as (st' & Happ & Hrun).
  exists st'. split; [exact Happ|].
  pose proof (strlen_c_string _ _ _ Hd) as Hld.
  pose proof (strlen_c_string _ _ _ Hs) as Hls.
  rewrite (checked_strcat_steps w _ _ _ _ _ _ Hld Hls).
  rewrite (try_checked_strcat_steps w _ _ _ _ _ _ Hld Hls).
  assert (Hsum : size_add w (Z.of_nat (length dstr)) (Z.of_nat (length sstr))
                 = Z.of_nat (length dstr) + Z.of_nat (length sstr)).
  { apply size_add_exact; unfold is_size_t in Hsz; lia. }
  rewrite Hsum, (size_pred w dsz Hsz) by lia.
  replace (dsz =? 0) with false by lia.
  replace (Z.of_nat (length dstr) + Z.of_nat (length sstr)
           <? Z.of_nat (length dstr)) with false by lia.
  replace (dsz - 1 <? Z.of_nat (length dstr) + Z.of_nat (length sstr))
    with false by lia.
  split; [apply (Hrun Z d) | apply (Hrun Z 0)].
Qed.

Lemma C5_concatenate_fits_witness :
  exists st',
    appended demo_state 1 [102; 111; 111] [98; 97; 114] st'
    /\ checked_strcat 64 1 8 9 demo_state = Returned 1 st'
    /\ try_checked_strcat 64 1 8 9 demo_state = Returned 0 st'.
Proof.
  apply (C5_concatenate_fits 64 demo_state 1 8 9
           [102; 111; 111] [98; 97; 114]).
  - unfold is_size_t; simpl; lia.
  - split; reflexivity.
  - split; reflexivity.
  - reflexivity.
  - reflexivity.
  - lia.
  - simpl; lia.
Defined.

(** "foo" in a buffer of 8 bytes and "bar" give "foobar". *)
Example concatenate_foo_bar :
  checked_strcat 64 1 8 9 demo_state
  = Returned 1
      (mkState [0; 102; 111; 111; 98; 97; 114; 0; 7; 98; 97; 114; 0; 9; 9] []).
Proof. reflexivity. Qed.

Lemma raises_after_false {B} v api_name (c : M unit) (k : M B) st out :
  raises v api_name st ((k : M B) st) -> out = (when false c;; k) st ->
  raises v api_name st out.
Proof. now intros H ->. Qed.

(** *** The three refusals of [checked_strcat], one per check *)

Section StrcatChecks.
Variables (w : Z) (st : state) (d dsz s dlen slen : Z).
Hypothesis Hdlen : strlen d st = Returned dlen st.
Hypothesis Hslen : strlen s st = Returned slen st.

Lemma checked_strcat_zero :
  dsz = 0 ->
  raises (BufferOverflowSized 0 (size_add w dlen slen)) "checked_strcat" st
    (checked_strcat w d dsz s st).
Proof.
  intros ->. rewrite (checked_strcat_steps w _ _ _ _ _ _ Hdlen Hslen).
  now eapply raises_intro.
Qed.

Lemma checked_strcat_wraps :
  dsz <> 0 -> size_add w dlen slen < dlen ->
  raises IntegerOverflow "checked_strcat" st (checked_strcat w d dsz s st).
Proof.
  intros Hnz Hlt. rewrite (checked_strcat_steps w _ _ _ _ _ _ Hdlen Hslen).
  replace (dsz =? 0) with false by lia.
  eapply raises_after_false; [|reflexivity].
  replace (size_add w dlen slen <? dlen) with true by lia.
  now eapply raises_intro.
Qed.

Lemma checked_strcat_short :
  dsz <> 0 -> dlen <= size_add w dlen slen ->
  size_sub w dsz 1 < size_add w dlen slen ->
  raises (BufferOverflowSized (size_sub w dsz 1) (size_add w dlen slen))
    "checked_strcat" st (checked_strcat w d dsz s st).
Proof.
  intros Hnz Hge Hlt.
  rewrite (checked_strcat_steps w _ _ _ _ _ _ Hdlen Hslen).
  replace (dsz =? 0) with false by lia.
  eapply raises_after_false; [|reflexivity].
  replace (size_add w dlen slen <? dlen) with false by lia.
  eapply raises_after_false; [|reflexivity].
  replace (size_sub w dsz 1 <? size_add w dlen slen) with true by lia.
  now eapply raises_intro.
Qed.

Lemma try_checked_strcat_wraps :
  dsz <> 0 -> size_add w dlen slen < dlen ->
  try_checked_strcat w d dsz s st
  = Returned ERR_POTENTIAL_INTEGER_OVERFLOW st.
Proof.
  intros Hnz Hlt.
  rewrite (try_checked_strcat_steps w _ _ _ _ _ _ Hdlen Hslen).
  replace (dsz =? 0) with false by lia.
  now replace (size_add w dlen slen <? dlen) with true by lia.
Qed.

Lemma try_checked_strcat_short :
  dsz <> 0 -> dlen <= size_add w dlen slen ->
  size_sub w dsz 1 < size_add w dlen slen ->
  try_checked_strcat w d dsz s st
  = Returned ERR_POTENTIAL_BUFFER_OVERFLOW st.
Proof.
  intros Hnz Hge Hlt.
  rewrite (try_checked_strcat_steps w _ _ _ _ _ _ Hdlen Hslen).
  replace (dsz =? 0) with false by lia.
  replace (size_add w dlen slen <? dlen) with false by lia.
  now replace (size_sub w dsz 1 <? size_add w dlen slen) with true by lia.
Qed.

End StrcatChecks.

(** C6 (as amended): for null-terminated strings, when the capacity is 0,
    or when the sum of the two lengths is representable in [size_t] and is
    at least the capacity, [checked_strcat] ends in the size-annotated
    buffer-overflow violation and [try_checked_strcat] returns the
    buffer-overflow code, with no byte of memory written.  For a capacity of
    0 the try variant does so whatever is in memory. *)
Theorem C6_concatenate_overflow w st d dsz s dstr sstr :
  let dlen := Z.of_nat (length dstr) in
  let slen := Z.of_nat (length sstr) in
  let out := checked_strcat w d dsz s st in
  is_size_t w dsz ->
  c_string st d dstr ->
  c_string st s sstr ->
  dsz = 0 \/ (dlen + slen < 2 ^ w /\ dsz <= dlen + slen) ->
  raises (BufferOverflowSized (if dsz =? 0 then 0 else dsz - 1)
            (size_add w dlen slen)) "checked_strcat" st out
  /\ no_write st out
  /\ try_checked_strcat w d dsz s st
     = Returned ERR_POTENTIAL_BUFFER_OVERFLOW st
  /\ (forall st0 d0 s0,
        try_checked_strcat w d0 0 s0 st0
        = Returned ERR_POTENTIAL_BUFFER_OVERFLOW st0).
Proof.
  intros dlen slen out Hsz Hd Hs Hc. subst out.
  pose proof (strlen_c_string _ _ _ Hd) as Hld.
  pose proof (strlen_c_string _ _ _ Hs) as Hls.
  fold dlen in Hld. fold slen in Hls.
  assert (Hr : raises (BufferOverflowSized (if dsz =? 0 then 0 else dsz - 1)
                         (size_add w dlen slen)) "checked_strcat" st
                 (checked_strcat w d dsz s st)
               /\ try_checked_strcat w d dsz s st
                  = Returned ERR_POTENTIAL_BUFFER_OVERFLOW st).
  { destruct (dsz =? 0) eqn:E.
    - split; [now apply checked_strcat_zero with (dlen := dlen) (slen := slen);
                try lia|].
      replace dsz with 0 by lia. reflexivity.
    - destruct Hc as [Hc|[Hrep Hc]]; [lia|].
      pose proof (size_add_exact w dlen slen) as Hsum.
      pose proof (size_pred w dsz Hsz) as Hpred.
      rewrite <- Hpred by lia.
      split; [apply checked_strcat_short | apply try_checked_strcat_short
                                             with (dlen := dlen) (slen := slen)];
        try assumption; lia. }
  split; [apply Hr|]. split; [eapply raises_no_write, Hr|].
  split; [apply Hr | reflexivity].
Qed.

Lemma C6_concatenate_overflow_witness :
  let dlen := Z.of_nat (length [102; 111; 111]) in
  let slen := Z.of_nat (length [98; 97; 114]) in
  let out := checked_strcat 64 1 4 9 demo_state in
  raises (BufferOverflowSized (if 4 =? 0 then 0 else 4 - 1)
            (size_add 64 dlen slen)) "checked_strcat" demo_state out
  /\ no_write demo_state out
  /\ try_checked_strcat 64 1 4 9 demo_state
     = Returned ERR_POTENTIAL_BUFFER_OVERFLOW demo_state
  /\ (forall st0 d0 s0,
        try_checked_strcat 64 d0 0 s0 st0
        = Returned ERR_POTENTIAL_BUFFER_OVERFLOW st0).
Proof.
  apply (C6_concatenate_overflow 64 demo_state 1 4 9
           [102; 111; 111] [98; 97; 114]).
  - unfold is_size_t; simpl; lia.
  - split; reflexivity.
  - split; reflexivity.
  - right. simpl. lia.
Defined.

(** *** The string that is half the address space *)

Lemma c_string_intro st p pre l rest :
  heap st = pre ++ l ++ 0 :: rest ->
  Z.of_nat (length pre) = p -> 0 < p ->
  forallb (fun c => negb (c =? 0)) l = true ->
  c_string st p l.
Proof.
  intros Hh Hp Hpos Hnz. split; [|exact Hnz].
  unfold load_bytes.
  replace (in_bounds (heap st) p (Z.of_nat (length l) + 1)) with true.
  2:{ symmetry. apply in_bounds_true. rewrite Hh, !length_app. simpl. lia. }
  f_equal. rewrite Hh.
  rewrite drop_app_length' by lia.
  replace (l ++ 0 :: rest) with ((l ++ [0]) ++ rest)
    by now rewrite <- app_assoc.
  apply take_app_length'. rewrite length_app. simpl. lia.
Qed.

Lemma wrap_string_length : Z.of_nat (length wrap_string) = 32768.
Proof. unfold wrap_string. rewrite length_replicate. lia. Qed.

Lemma wrap_string_nonzero :
  forallb (fun c => negb (c =? 0)) wrap_string = true.
Proof.
  unfold wrap_string. induction (Z.to_nat 32768) as [|n IH];
    [reflexivity | exact IH].
Qed.

Lemma wrap_state_string : c_string wrap_state 1 wrap_string.
Proof.
  apply (c_string_intro wrap_state 1 [0] wrap_string []);
    [reflexivity | reflexivity | lia | exact wrap_string_nonzero].
Qed.

Lemma wrap_state_strlen : strlen 1 wrap_state = Returned 32768 wrap_state.
Proof.
  rewrite <- wrap_string_length. apply strlen_c_string, wrap_state_string.
Qed.

Lemma wrap_string_size : is_size_t 16 (Z.of_nat (length wrap_string)).
Proof. rewrite wrap_string_length. unfold is_size_t. simpl. lia. Qed.

(** C6 as stated fails: on a 16-bit [size_t], concatenating a string of
    32768 characters to itself into a capacity of 8 has lengths that add up
    to far more than the capacity, yet the sum wraps to 0 and what is
    reported is the integer overflow, not the buffer overflow. *)
Lemma C6_counterexample :
  c_string wrap_state 1 wrap_string
  /\ 8 <= Z.of_nat (length wrap_string) + Z.of_nat (length wrap_string)
  /\ raises IntegerOverflow "checked_strcat" wrap_state
       (checked_strcat 16 1 8 1 wrap_state)
  /\ (forall a b,
        ~ raises (BufferOverflowSized a b) "checked_strcat" wrap_state
            (checked_strcat 16 1 8 1 wrap_state))
  /\ try_checked_strcat 16 1 8 1 wrap_state
     = Returned ERR_POTENTIAL_INTEGER_OVERFLOW wrap_state
  /\ ERR_POTENTIAL_INTEGER_OVERFLOW <> ERR_POTENTIAL_BUFFER_OVERFLOW.
Proof.
  pose proof (checked_strcat_wraps 16 wrap_state 1 8 1 32768 32768
                wrap_state_strlen wrap_state_strlen) as Hr.
  split; [exact wrap_state_string|].
  split; [rewrite wrap_string_length; lia|].
  split; [apply Hr; [lia | reflexivity]|]. split.
  - intros a b Hs.
    destruct (sized_message_distinct a b IntegerOverflow) as (a' & b' & H);
      [|discriminate H].
    apply (raises_same_message _ _ _ _ _ Hs). apply Hr; [lia | reflexivity].
  - split; [|discriminate].
    apply (try_checked_strcat_wraps 16 wrap_state 1 8 1 32768 32768
             wrap_state_strlen wrap_state_strlen); [lia | reflexivity].
Qed.

(** C7 (as amended): for null-terminated strings and a capacity that is not
    0, when the [size_t] sum of the two lengths is below one of them, the
    sum has wrapped around and is below both; [checked_strcat] then ends in
    the integer-overflow violation and [try_checked_strcat] returns the
    integer-overflow code, with no byte of memory written. *)
Theorem C7_concatenate_length_wraps w st d dsz s dstr sstr :
  let dlen := Z.of_nat (length dstr) in
  let slen := Z.of_nat (length sstr) in
  let out := checked_strcat w d dsz s st in
  is_size_t w dlen -> is_size_t w slen ->
  c_string st d dstr ->
  c_string st s sstr ->
  dsz <> 0 ->
  size_add w dlen slen < dlen \/ size_add w dlen slen < slen ->
  2 ^ w <= dlen + slen
  /\ size_add w dlen slen < dlen /\ size_add w dlen slen < slen
  /\ raises IntegerOverflow "checked_strcat" st out
  /\ no_write st out
  /\ try_checked_strcat w d dsz s st
     = Returned ERR_POTENTIAL_INTEGER_OVERFLOW st.
Proof.
  intros dlen slen out Hdl Hsl Hd Hs Hnz Hw. subst out.
  pose proof (strlen_c_string _ _ _ Hd) as Hld.
  pose proof (strlen_c_string _ _ _ Hs) as Hls.
  fold dlen in Hld. fold slen in Hls.
  destruct (size_add_wraps_iff w dlen slen Hdl Hsl) as [Ha Hb].
  assert (Hwrap : 2 ^ w <= dlen + slen) by (destruct Hw; tauto).
  assert (Hlt : size_add w dlen slen < dlen) by tauto.
  pose proof (checked_strcat_wraps w st d dsz s dlen slen Hld Hls Hnz Hlt)
    as Hr.
  split; [exact Hwrap|]. split; [exact Hlt|]. split; [tauto|].
  split; [exact Hr|]. split; [eapply raises_no_write, Hr|].
  now apply try_checked_strcat_wraps with (dlen := dlen) (slen := slen).
Qed.

Lemma C7_concatenate_length_wraps_witness :
  let dlen := Z.of_nat (length wrap_string) in
  let slen := Z.of_nat (length wrap_string) in
  let out := checked_strcat 16 1 8 1 wrap_state in
  2 ^ 16 <= dlen + slen
  /\ size_add 16 dlen slen < dlen /\ size_add 16 dlen slen < slen
  /\ raises IntegerOverflow "checked_strcat" wrap_state out
  /\ no_write wrap_state out
  /\ try_checked_strcat 16 1 8 1 wrap_state
     = Returned ERR_POTENTIAL_INTEGER_OVERFLOW wrap_state.
Proof.
  apply (C7_concatenate_length_wraps 16 wrap_state 1 8 1
           wrap_string wrap_string).
  - exact wrap_string_size.
  - exact wrap_string_size.
  - exact wrap_state_string.
  - exact wrap_state_string.
  - lia.
  - left. rewrite wrap_string_length. reflexivity.
Defined.

(** C7 as stated fails: with a capacity of 0 the wrapped sum is never
    looked at; the buffer overflow is reported. *)
Lemma C7_counterexample :
  c_string wrap_state 1 wrap_string
  /\ size_add 16 (Z.of_nat (length wrap_string))
       (Z.of_nat (length wrap_string))
     < Z.of_nat (length wrap_string)
  /\ raises (BufferOverflowSized 0 0) "checked_strcat" wrap_state
       (checked_strcat 16 1 0 1 wrap_state)
  /\ ~ raises IntegerOverflow "checked_strcat" wrap_state
         (checked_strcat 16 1 0 1 wrap_state)
  /\ try_checked_strcat 16 1 0 1 wrap_state
     = Returned ERR_POTENTIAL_BUFFER_OVERFLOW wrap_state
  /\ ERR_POTENTIAL_BUFFER_OVERFLOW <> ERR_POTENTIAL_INTEGER_OVERFLOW.
Proof.
  pose proof (checked_strcat_zero 16 wrap_state 1 0 1 32768 32768
                wrap_state_strlen wrap_state_strlen eq_refl) as Hr.
  change (size_add 16 32768 32768) with 0 in Hr.
  split; [exact wrap_state_string|].
  split; [rewrite wrap_string_length; reflexivity|].
  split; [exact Hr|]. split.
  - intros Hi.
    destruct (sized_message_distinct 0 0 IntegerOverflow) as (a' & b' & H);
      [exact (raises_same_message _ _ _ _ _ Hr Hi) | discriminate H].
  - split; [reflexivity | discriminate].
Qed.

(** ** Guarded compare *)

Lemma lex_verdict_cons_eq r c l1 l2 :
  lex_verdict r l1 l2 -> lex_verdict r (c :: l1) (c :: l2).
Proof.
  intros [Hz Hnz]. split.
  - rewrite Hz. split; [now intros -> | now intros [= ->]].
  - intros Hr. destruct (Hnz Hr) as (i & b1 & b2 & H1 & H2 & Ht & Hrest).
    exists (S i), b1, b2. simpl. now rewrite Ht.
Qed.

Lemma lex_verdict_cons_ne c1 c2 l1 l2 :
  c1 <> c2 -> lex_verdict (c1 - c2) (c1 :: l1) (c2 :: l2).
Proof.
  intros Hne. split.
  - split; [lia | now intros [= -> _]].
  - intros _. exists O, c1, c2. simpl. repeat split; (reflexivity || lia).
Qed.

Lemma lex_verdict_nil : lex_verdict 0 [] [].
Proof. split; [tauto | now intros H]. Qed.

Lemma memcmp_bytes_verdict l1 : forall l2,
  length l1 = length l2 -> lex_verdict (memcmp_bytes l1 l2) l1 l2.
Proof.
  induction l1 as [|c1 t1 IH]; intros [|c2 t2] Hl; try discriminate Hl.
  - apply lex_verdict_nil.
  - simpl. destruct (c1 =? c2) eqn:E.
    + replace c2 with c1 by lia. apply lex_verdict_cons_eq, IH.
      now injection Hl.
    + apply lex_verdict_cons_ne. lia.
Qed.

Lemma strncmp_bytes_verdict n : forall l1 l2,
  (n <= length l1)%nat -> (n <= length l2)%nat ->
  exists r,
    strncmp_bytes n l1 l2 = Some r
    /\ let k := compared_span n (take n l1) in
       lex_verdict r (take k (take n l1)) (take k (take n l2)).
Proof.
  induction n as [|n IH]; intros l1 l2 H1 H2.
  - exists 0. split; [reflexivity | apply lex_verdict_nil].
  - destruct l1 as [|c1 t1]; [simpl in H1; lia|].
    destruct l2 as [|c2 t2]; [simpl in H2; lia|].
    simpl in H1, H2. simpl.
    destruct (c1 =? c2) eqn:E.
    + replace c2 with c1 by lia. destruct (c1 =? 0) eqn:E0.
      * exists 0. split; [reflexivity|]. simpl. rewrite !take_0.
        apply lex_verdict_cons_eq, lex_verdict_nil.
      * destruct (IH t1 t2) as (r & Hr & Hv); [lia | lia |].
        exists r. split; [exact Hr|]. simpl.
        now apply lex_verdict_cons_eq.
    + exists (c1 - c2). split; [reflexivity|].
      destruct (c1 =? 0); simpl; apply lex_verdict_cons_ne; lia.
Qed.

(** C8: with the requested length within both capacities (and both
    operands in memory), [checked_memcmp] returns the verdict of the
    unsigned lexicographic comparison of the [num] bytes of each operand:
    0 exactly when they are all equal, otherwise negative or positive as the
    first differing byte of operand 1 is the smaller or the greater.
    [checked_strncmp] returns the same verdict over the characters it
    compares, those up to and including the terminator of the first string.
    A length above either capacity ends both in the out-of-bounds-read
    violation, no byte compared or written. *)
Theorem C8_compare st p1 sz1 p2 sz2 n :
  (0 <= n -> n <= sz1 -> n <= sz2 ->
   in_bounds (heap st) p1 sz1 = true ->
   in_bounds (heap st) p2 sz2 = true ->
   exists l1 l2 r r',
     load_bytes (heap st) p1 n = Some l1
     /\ load_bytes (heap st) p2 n = Some l2
     /\ checked_memcmp p1 sz1 p2 sz2 n st = Returned r st
     /\ lex_verdict r l1 l2
     /\ checked_strncmp p1 sz1 p2 sz2 n st = Returned r' st
     /\ let k := compared_span (Z.to_nat n) l1 in
        lex_verdict r' (take k l1) (take k l2))
  /\ (sz1 < n \/ sz2 < n ->
      raises OutOfBoundsRead "checked_memcmp" st
        (checked_memcmp p1 sz1 p2 sz2 n st)
      /\ no_write st (checked_memcmp p1 sz1 p2 sz2 n st)
      /\ raises OutOfBoundsRead "checked_strncmp" st
           (checked_strncmp p1 sz1 p2 sz2 n st)
      /\ no_write st (checked_strncmp p1 sz1 p2 sz2 n st)).
Proof.
  split.
  - intros Hn H1 H2 Hb1 Hb2.
    assert (Hn1 : in_bounds (heap st) p1 n = true)
      by (eapply in_bounds_weaken; [exact Hb1 | lia]).
    assert (Hn2 : in_bounds (heap st) p2 n = true)
      by (eapply in_bounds_weaken; [exact Hb2 | lia]).
    pose proof (load_bytes_in_bounds _ _ _ Hn1) as Hl1.
    pose proof (load_bytes_in_bounds _ _ _ Hn2) as Hl2.
    apply in_bounds_true in Hb1, Hb2.
    destruct (strncmp_bytes_verdict (Z.to_nat n)
                (drop (Z.to_nat p1) (heap st)) (drop (Z.to_nat p2) (heap st)))
      as (r' & Hr' & Hv'); [rewrite length_drop; lia .. |].
    eexists _, _, _, r'. split; [exact Hl1|]. split; [exact Hl2|].
    split; [|split; [|split]].
    + unfold checked_memcmp.
      replace ((n >? sz1) || (n >? sz2)) with false by lia.
      unfold memcmp, mbind, M_bind. simpl. now rewrite Hl1, Hl2.
    + apply memcmp_bytes_verdict.
      rewrite (load_bytes_length _ _ _ _ Hl1).
      now rewrite (load_bytes_length _ _ _ _ Hl2).
    + unfold checked_strncmp.
      replace ((sz1 <? n) || (sz2 <? n)) with false by lia.
      unfold strncmp, mbind, M_bind. simpl.
      rewrite (in_bounds_weaken _ _ _ 0 Hn1) by lia.
      rewrite (in_bounds_weaken _ _ _ 0 Hn2) by lia.
      replace (0 <=? n) with true by lia. simpl. now rewrite Hr'.
    + exact Hv'.
  - intros Hc.
    assert (Hr1 : raises OutOfBoundsRead "checked_memcmp" st
                    (checked_memcmp p1 sz1 p2 sz2 n st)).
    { unfold checked_memcmp.
      replace ((n >? sz1) || (n >? sz2)) with true by lia.
      now eapply raises_intro. }
    assert (Hr2 : raises OutOfBoundsRead "checked_strncmp" st
                    (checked_strncmp p1 sz1 p2 sz2 n st)).
    { unfold checked_strncmp.
      replace ((sz1 <? n) || (sz2 <? n)) with true by lia.
      now eapply raises_intro. }
    split; [exact Hr1|]. split; [eapply raises_no_write, Hr1|].
    split; [exact Hr2 | eapply raises_no_write, Hr2].
Qed.

Lemma C8_compare_witness :
  (exists l1 l2 r r',
     load_bytes (heap demo_state) 1 4 = Some l1
     /\ load_bytes (heap demo_state) 9 4 = Some l2
     /\ checked_memcmp 1 8 9 6 4 demo_state = Returned r demo_state
     /\ lex_verdict r l1 l2
     /\ checked_strncmp 1 8 9 6 4 demo_state = Returned r' demo_state
     /\ let k := compared_span (Z.to_nat 4) l1 in
        lex_verdict r' (take k l1) (take k l2))
  /\ (raises OutOfBoundsRead "checked_memcmp" demo_state
        (checked_memcmp 1 8 9 6 7 demo_state)
      /\ no_write demo_state (checked_memcmp 1 8 9 6 7 demo_state)
      /\ raises OutOfBoundsRead "checked_strncmp" demo_state
           (checked_strncmp 1 8 9 6 7 demo_state)
      /\ no_write demo_state (checked_strncmp 1 8 9 6 7 demo_state)).
Proof.
  split.
  - apply (proj1 (C8_compare demo_state 1 8 9 6 4));
      [lia | lia | lia | reflexivity | reflexivity].
  - apply (proj2 (C8_compare demo_state 1 8 9 6 7)). lia.
Defined.

(** The string comparison stops at the terminator: "foo" at address 1 and
    the same bytes at address 1 again agree over 8 characters, and so do
    two strings that differ only behind their terminators. *)
Example compare_stops_at_terminator :
  checked_strncmp 1 3 4 3 3 (mkState [0; 97; 0; 120; 97; 0; 121] [])
  = Returned 0 (mkState [0; 97; 0; 120; 97; 0; 121] [])
  /\ checked_memcmp 1 3 4 3 3 (mkState [0; 97; 0; 120; 97; 0; 121] [])
     = Returned (-1) (mkState [0; 97; 0; 120; 97; 0; 121] []).
Proof. split; reflexivity. Qed.

(** "foo" against "bar": the first bytes differ, 102 above 98. *)
Example compare_foo_bar :
  checked_memcmp 1 8 9 6 3 demo_state = Returned 4 demo_state
  /\ checked_strncmp 9 6 1 8 3 demo_state = Returned (-4) demo_state.
Proof. split; reflexivity. Qed.

(** ** Guarded fill *)

Lemma to_uchar_low_byte ch : to_uchar ch = ch mod 2 ^ 8.
Proof. unfold to_uchar. change 255 with (Z.ones 8). apply Z.land_ones. lia. Qed.

(** C9: with [count <= destination_size] (and the capacity in memory),
    [checked_memset] returns the destination with each of its first [count]
    bytes equal to the low 8 bits of the fill value, every other byte as
    before; with [count > destination_size] it ends in the buffer-overflow
    violation with no byte written. *)
Theorem C9_fill st d dsz ch n :
  (0 <= n <= dsz -> in_bounds (heap st) d dsz = true ->
   exists st',
     checked_memset d dsz ch n st = Returned d st'
     /\ (forall i, 0 <= i < n -> byte_at st' (d + i) = Some (ch mod 2 ^ 8))
     /\ (forall a, ~ (d <= a < d + n) -> byte_at st' a = byte_at st a)
     /\ stderr st' = stderr st)
  /\ (dsz < n ->
      raises BufferOverflow "checked_memset" st (checked_memset d dsz ch n st)
      /\ no_write st (checked_memset d dsz ch n st)).
Proof.
  split.
  - intros Hn Hb.
    assert (Hb' : in_bounds (heap st) d
                    (Z.of_nat (length (replicate (Z.to_nat n) (to_uchar ch))))
                  = true).
    { rewrite length_replicate, Z2Nat.id by lia.
      eapply in_bounds_weaken; [exact Hb | lia]. }
    destruct (stored_bytes st d _ Hb') as (_ & Hin & Hout).
    rewrite length_replicate, Z2Nat.id in Hin, Hout by lia.
    eexists. split; [|split; [|split]].
    + unfold checked_memset. replace (n >? dsz) with false by lia.
      unfold memset, mbind, M_bind. simpl.
      replace (0 <=? n) with true by lia.
      now rewrite (store_bytes_in_bounds _ _ _ Hb').
    + intros i Hi. rewrite (Hin i Hi), <- to_uchar_low_byte.
      apply lookup_replicate_2. lia.
    + exact Hout.
    + reflexivity.
  - intros Hlt.
    assert (Hr : raises BufferOverflow "checked_memset" st
                   (checked_memset d dsz ch n st)).
    { unfold checked_memset. replace (n >? dsz) with true by lia.
      now eapply raises_intro. }
    split; [exact Hr | eapply raises_no_write, Hr].
Qed.

Lemma C9_fill_witness :
  (exists st',
     checked_memset 1 8 (-1) 3 demo_state = Returned 1 st'
     /\ (forall i, 0 <= i < 3 -> byte_at st' (1 + i) = Some (-1 mod 2 ^ 8))
     /\ (forall a, ~ (1 <= a < 1 + 3) -> byte_at st' a = byte_at demo_state a)
     /\ stderr st' = stderr demo_state)
  /\ (raises BufferOverflow "checked_memset" demo_state
        (checked_memset 1 8 (-1) 9 demo_state)
      /\ no_write demo_state (checked_memset 1 8 (-1) 9 demo_state)).
Proof.
  split.
  - apply (proj1 (C9_fill demo_state 1 8 (-1) 3)); [lia | reflexivity].
  - apply (proj2 (C9_fill demo_state 1 8 (-1) 9)). lia.
Defined.

(** Filling with -1 stores the byte 255. *)
Example fill_minus_one :
  checked_memset 1 8 (-1) 3 demo_state
  = Returned 1
      (mkState [0; 255; 255; 255; 0; 7; 7; 7; 7; 98; 97; 114; 0; 9; 9] []).
Proof. reflexivity. Qed.

(** ** Error codes *)

Lemma memcpy_then_code d s n c st :
  is_error_code c -> returns_error_code ((memcpy d s n;; mret c) st).
Proof.
  intros Hc. unfold mbind, M_bind.
  pose proof (memcpy_not_aborted d s n st) as H.
  destruct (memcpy d s n st) as [a st'|st'|]; simpl;
    [exact Hc | now apply (H st') | exact I].
Qed.

Lemma try_checked_strcat_code w d dsz s st :
  returns_error_code (try_checked_strcat w d dsz s st).
Proof.
  unfold try_checked_strcat.
  destruct (dsz =? 0); [right; now left|].
  unfold mbind at 1, M_bind at 1. unfold strlen at 1.
  destruct (in_bounds (heap st) d 0); [|exact I].
  destruct (strlen_bytes (drop (Z.to_nat d) (heap st))) as [dlen|]; [|exact I].
  unfold mbind at 1, M_bind at 1. unfold strlen at 1.
  destruct (in_bounds (heap st) s 0); [|exact I].
  destruct (strlen_bytes (drop (Z.to_nat s) (heap st))) as [slen|]; [|exact I].
  destruct (size_add w dlen slen <? dlen); [right; now right|].
  destruct (size_sub w dsz 1 <? size_add w dlen slen); [right; now left|].
  unfold mbind at 1, M_bind at 1.
  pose proof (memcpy_not_aborted (d + dlen) s slen st) as H.
  destruct (memcpy (d + dlen) s slen st) as [a st1|st1|];
    [|now apply (H st1) | exact I].
  unfold mbind, M_bind, store_char.
  destruct (store_bytes (heap st1) (d + dlen + slen) [to_uchar 0]);
    [now left | exact I].
Qed.

(** C10: the codes of the try family are 0 for success, 34 ([ERANGE]) for
    a buffer overflow and 75 ([EOVERFLOW]) for an integer overflow, pairwise
    distinct; a function of the family never aborts and returns no other
    value; and each of the three values is returned on some input. *)
Theorem C10_error_codes :
  ERR_POTENTIAL_BUFFER_OVERFLOW = 34
  /\ ERR_POTENTIAL_BUFFER_OVERFLOW = ERANGE
  /\ ERR_POTENTIAL_INTEGER_OVERFLOW = 75
  /\ ERR_POTENTIAL_INTEGER_OVERFLOW = EOVERFLOW
  /\ ERR_POTENTIAL_BUFFER_OVERFLOW <> 0
  /\ ERR_POTENTIAL_INTEGER_OVERFLOW <> 0
  /\ ERR_POTENTIAL_BUFFER_OVERFLOW <> ERR_POTENTIAL_INTEGER_OVERFLOW
  /\ (forall st d dsz s n,
        returns_error_code (try_checked_memcpy d dsz s n st))
  /\ (forall st d dsz s ssz n,
        returns_error_code (try_checked_memcpy_robust d dsz s ssz n st))
  /\ (forall w st d dsz s,
        returns_error_code (try_checked_strcat w d dsz s st))
  /\ (exists st', try_checked_strcat 64 1 8 9 demo_state = Returned 0 st')
  /\ try_checked_strcat 64 1 4 9 demo_state
     = Returned ERR_POTENTIAL_BUFFER_OVERFLOW demo_state
  /\ try_checked_strcat 16 1 8 1 wrap_state
     = Returned ERR_POTENTIAL_INTEGER_OVERFLOW wrap_state.
Proof.
  repeat (split; [reflexivity || discriminate|]).
  split.
  { intros st d dsz s n. unfold try_checked_memcpy.
    destruct (dsz <? n); [right; now left|].
    apply memcpy_then_code. now left. }
  split.
  { intros st d dsz s ssz n. unfold try_checked_memcpy_robust.
    destruct ((dsz <? n) || (ssz <? n)); [right; now left|].
    apply memcpy_then_code. now left. }
  split; [intros w st d dsz s; apply try_checked_strcat_code|].
  split; [eexists; reflexivity|]. split; [reflexivity|].
  apply (try_checked_strcat_wraps 16 wrap_state 1 8 1 32768 32768
           wrap_state_strlen wrap_state_strlen); [lia | reflexivity].
Qed.

(** * Further properties of the operations *)

(** ** Each operation as a case distinction on its checks *)

Lemma when_raise {B} (b : bool) v api_name (k : M B) st :
  (when b (handler v api_name);; k) st
  = if b then Aborted (emit [diagnostic v; api_name; newline] st) else k st.
Proof.
  destruct b; [|reflexivity].
  exact (bind_aborted _ _ _ _ (handler_aborts v api_name st)).
Qed.

Lemma checked_memcpy_cases d dsz s n st :
  checked_memcpy d dsz s n st
  = if dsz <? n
    then Aborted (emit [diagnostic (BufferOverflowSized dsz n);
                        "checked_memcpy"; newline] st)
    else if (s =? BAD_PTR) || (d =? BAD_PTR)
    then Aborted (emit [diagnostic NullPointer; "checked_memcpy"; newline] st)
    else memcpy d s n st.
Proof.
  unfold checked_memcpy.
  rewrite (when_raise (dsz <? n) (BufferOverflowSized dsz n) "checked_memcpy").
  destruct (dsz <? n); [reflexivity|].
  exact (when_raise _ NullPointer "checked_memcpy" (memcpy d s n) st).
Qed.

Lemma checked_memcpy_robust_cases d dsz s ssz n st :
  checked_memcpy_robust d dsz s ssz n st
  = if (dsz <? n) || (ssz <? n)
    then Aborted (emit [diagnostic BufferOverflow;
                        "checked_memcpy_robust"; newline] st)
    else memcpy d s n st.
Proof.
  exact (when_raise _ BufferOverflow "checked_memcpy_robust"
           (memcpy d s n) st).
Qed.

Lemma checked_memcpy_offset_cases w d dsz off s n st :
  checked_memcpy_offset w d dsz off s n st
  = if (dsz <? n) || (off >=? dsz)
    then Aborted (emit [diagnostic (BufferOverflowSized (size_sub w dsz off) n);
                        "checked_memcpy_offset"; newline] st)
    else (memcpy (d + off) s n;; mret d) st.
Proof.
  exact (when_raise _ (BufferOverflowSized (size_sub w dsz off) n)
           "checked_memcpy_offset" (memcpy (d + off) s n;; mret d) st).
Qed.

Lemma checked_memset_cases d dsz ch n st :
  checked_memset d dsz ch n st
  = if n >? dsz
    then Aborted (emit [diagnostic BufferOverflow; "checked_memset"; newline]
                    st)
    else memset d ch n st.
Proof.
  exact (when_raise _ BufferOverflow "checked_memset" (memset d ch n) st).
Qed.

Lemma checked_memcmp_cases p1 sz1 p2 sz2 n st :
  checked_memcmp p1 sz1 p2 sz2 n st
  = if (n >? sz1) || (n >? sz2)
    then Aborted (emit [diagnostic OutOfBoundsRead; "checked_memcmp"; newline]
                    st)
    else memcmp p1 p2 n st.
Proof.
  exact (when_raise _ OutOfBoundsRead "checked_memcmp" (memcmp p1 p2 n) st).
Qed.

Lemma checked_strncmp_cases p1 sz1 p2 sz2 n st :
  checked_strncmp p1 sz1 p2 sz2 n st
  = if (sz1 <? n) || (sz2 <? n)
    then Aborted (emit [diagnostic OutOfBoundsRead; "checked_strncmp"; newline]
                    st)
    else strncmp p1 p2 n st.
Proof.
  exact (when_raise _ OutOfBoundsRead "checked_strncmp" (strncmp p1 p2 n) st).
Qed.

Lemma checked_strcat_cases w st d dsz s dlen slen :
  strlen d st = Returned dlen st ->
  strlen s st = Returned slen st ->
  checked_strcat w d dsz s st
  = if dsz =? 0
    then Aborted (emit [diagnostic (BufferOverflowSized dsz
                                      (size_add w dlen slen));
                        "checked_strcat"; newline] st)
    else if size_add w dlen slen <? dlen
    then Aborted (emit [diagnostic IntegerOverflow; "checked_strcat"; newline]
                    st)
    else if size_sub w dsz 1 <? size_add w dlen slen
    then Aborted (emit [diagnostic (BufferOverflowSized (size_sub w dsz 1)
                                      (size_add w dlen slen));
                        "checked_strcat"; newline] st)
    else (memcpy (d + dlen) s slen;;
          store_char (d + dlen + slen) 0;;
          mret d) st.
Proof.
  intros Hd Hs. rewrite (checked_strcat_steps w _ _ _ _ _ _ Hd Hs).
  rewrite (when_raise (dsz =? 0)
             (BufferOverflowSized dsz (size_add w dlen slen)) "checked_strcat").
  destruct (dsz =? 0); [reflexivity|].
  rewrite (when_raise (size_add w dlen slen <? dlen) IntegerOverflow
             "checked_strcat").
  destruct (size_add w dlen slen <? dlen); [reflexivity|].
  exact (when_raise _ (BufferOverflowSized (size_sub w dsz 1)
                         (size_add w dlen slen)) "checked_strcat" _ st).
Qed.

(** ** What the primitives leave behind *)

Lemma set_heap_same st : set_heap (heap st) st = st.
Proof. now destruct st. Qed.

Lemma memcpy_returned d s n st r st' :
  memcpy d s n st = Returned r st' ->
  r = d /\ 0 <= n
  /\ in_bounds (heap st) d n = true /\ in_bounds (heap st) s n = true
  /\ regions_overlap d s n = false
  /\ copied st d s n st'.
Proof.
  intros H. pose proof H as H0. unfold memcpy in H0.
  destruct (load_bytes (heap st) s n) as [bs|] eqn:El; [|discriminate].
  destruct (regions_overlap d s n) eqn:Eo; [discriminate|].
  destruct (store_bytes (heap st) d bs) as [h'|] eqn:Es; [|discriminate].
  clear H0.
  pose proof (load_bytes_Some _ _ _ _ El) as Hs.
  pose proof (load_bytes_length _ _ _ _ El) as Hl.
  assert (Hn : 0 <= n) by (apply in_bounds_true in Hs; lia).
  assert (Hd : in_bounds (heap st) d n = true).
  { unfold store_bytes in Es.
    destruct (in_bounds (heap st) d (Z.of_nat (length bs))) eqn:E;
      [|discriminate].
    now rewrite Hl, Z2Nat.id in E by lia. }
  destruct (memcpy_copied st d s n Hd Hs Eo) as (st2 & Hm & Hc).
  rewrite H in Hm. injection Hm as Hr Hst. subst r st2.
  repeat (split; [first [reflexivity | assumption]|]). exact Hc.
Qed.

Lemma memset_returned d ch n st r st' :
  memset d ch n st = Returned r st' ->
  r = d /\ 0 <= n /\ in_bounds (heap st) d n = true
  /\ stderr st' = stderr st
  /\ unchanged_outside st st' d (d + n)
  /\ (forall i, 0 <= i < n -> byte_at st' (d + i) = Some (to_uchar ch)).
Proof.
  unfold memset. destruct (0 <=? n) eqn:En; [|discriminate].
  destruct (store_bytes _ _ _) as [h'|] eqn:Es; [|discriminate].
  intros [= <- <-]. unfold store_bytes in Es.
  destruct (in_bounds _ _ _) eqn:Hb; [|discriminate].
  injection Es as <-.
  destruct (stored_bytes st d _ Hb) as (Hl & Hin & Hout).
  rewrite length_replicate, Z2Nat.id in Hb, Hin, Hout by lia.
  split; [reflexivity|]. split; [lia|]. split; [exact Hb|].
  split; [reflexivity|]. split; [split; [exact Hl | exact Hout]|].
  intros i Hi. rewrite (Hin i Hi). apply lookup_replicate_2. lia.
Qed.

Lemma memset_fills d ch n st :
  0 <= n -> in_bounds (heap st) d n = true ->
  exists st', memset d ch n st = Returned d st'.
Proof.
  intros Hn Hb. unfold memset. replace (0 <=? n) with true by lia.
  rewrite store_bytes_in_bounds; [eauto|].
  now rewrite length_replicate, Z2Nat.id by lia.
Qed.

Lemma store_char_returned p c st st' :
  store_char p c st = Returned tt st' ->
  in_bounds (heap st) p 1 = true
  /\ stderr st' = stderr st
  /\ unchanged_outside st st' p (p + 1)
  /\ byte_at st' p = Some (to_uchar c).
Proof.
  unfold store_char. destruct (store_bytes _ _ _) as [h'|] eqn:Es;
    [|discriminate].
  intros [= <-]. unfold store_bytes in Es.
  destruct (in_bounds _ _ _) eqn:Hb; [|discriminate].
  injection Es as <-.
  destruct (stored_bytes st p _ Hb) as (Hl & Hin & Hout).
  split; [first [exact Hb | reflexivity]|]. split; [reflexivity|].
  split; [split; [exact Hl | exact Hout]|].
  specialize (Hin 0 ltac:(simpl; lia)). now rewrite Z.add_0_r in Hin.
Qed.

Lemma strlen_outcome p st :
  match strlen p st with
  | Returned n st' => st' = st /\ 0 <= n /\ in_bounds (heap st) p (n + 1) = true
  | Aborted _ => False
  | Undefined => True
  end.
Proof.
  unfold strlen. destruct (in_bounds (heap st) p 0) eqn:Hb; [|exact I].
  apply in_bounds_true in Hb.
  assert (Hgen : forall l, match strlen_bytes l with
                           | Some n => 0 <= n < Z.of_nat (length l)
                           | None => True
                           end).
  { induction l as [|c l IH]; simpl; [exact I|].
    destruct (c =? 0); [lia|].
    destruct (strlen_bytes l); simpl; [lia | exact I]. }
  specialize (Hgen (drop (Z.to_nat p) (heap st))).
  destruct (strlen_bytes _) as [n|]; [|exact I].
  rewrite length_drop in Hgen.
  split; [reflexivity|]. split; [lia|]. apply in_bounds_true. lia.
Qed.

Lemma memcmp_outcome p1 p2 n st :
  match memcmp p1 p2 n st with
  | Returned _ st' => st' = st
  | Aborted _ => False
  | Undefined => True
  end.
Proof.
  unfold memcmp. destruct (load_bytes _ p1 n); [|exact I].
  now destruct (load_bytes _ p2 n).
Qed.

Lemma strncmp_outcome p1 p2 n st :
  match strncmp p1 p2 n st with
  | Returned _ st' => st' = st
  | Aborted _ => False
  | Undefined => True
  end.
Proof.
  unfold strncmp. destruct (_ && _); [|exact I].
  now destruct (strncmp_bytes _ _ _).
Qed.

(** ** The discipline of diagnostics *)

Lemma quiet_diagnosed {A} api_name st (out : outcome A) :
  quiet st out -> diagnosed api_name st out.
Proof. destruct out; simpl; tauto. Qed.

Lemma diagnosed_check {A} (b : bool) msg api_name st (out : outcome A) :
  diagnosed api_name st out ->
  diagnosed api_name st
    (if b then Aborted (emit [msg; api_name; newline] st) else out).
Proof. destruct b; [|tauto]. intros _. simpl. eauto. Qed.

Lemma quiet_bind {A B} (c : M A) (k : A -> M B) st :
  quiet st (c st) ->
  (forall a st1, c st = Returned a st1 -> quiet st1 (k a st1)) ->
  quiet st ((c ≫= k) st).
Proof.
  unfold mbind, M_bind. destruct (c st) as [a st1|st1|]; simpl;
    [|tauto|tauto].
  intros Hq Hk. specialize (Hk a st1 eq_refl).
  unfold quiet in *. destruct (k a st1); [congruence | exact Hk | exact I].
Qed.

Lemma memcpy_quiet d s n st : quiet st (memcpy d s n st).
Proof.
  destruct (memcpy d s n st) as [r st'|st'|] eqn:E; simpl; [| |exact I].
  - apply memcpy_returned in E. apply E.
  - now apply memcpy_not_aborted in E.
Qed.

Lemma memset_quiet d ch n st : quiet st (memset d ch n st).
Proof.
  destruct (memset d ch n st) as [r st'|st'|] eqn:E; simpl; [| |exact I].
  - apply memset_returned in E. apply E.
  - unfold memset in E. destruct (0 <=? n); [|discriminate].
    now destruct (store_bytes _ _ _).
Qed.

Lemma store_char_quiet p c st : quiet st (store_char p c st).
Proof. unfold store_char. now destruct (store_bytes _ _ _). Qed.

Lemma strlen_quiet p st : quiet st (strlen p st).
Proof.
  pose proof (strlen_outcome p st) as H.
  destruct (strlen p st); simpl; [now destruct H as [-> _] | exact H | exact I].
Qed.

Lemma memcmp_quiet p1 p2 n st : quiet st (memcmp p1 p2 n st).
Proof.
  pose proof (memcmp_outcome p1 p2 n st) as H.
  destruct (memcmp p1 p2 n st); simpl; [now subst | exact H | exact I].
Qed.

Lemma strncmp_quiet p1 p2 n st : quiet st (strncmp p1 p2 n st).
Proof.
  pose proof (strncmp_outcome p1 p2 n st) as H.
  destruct (strncmp p1 p2 n st); simpl; [now subst | exact H | exact I].
Qed.

Lemma append_quiet {B} a s n p (r : B) st :
  quiet st ((memcpy a s n;; store_char p 0;; mret r) st).
Proof.
  apply quiet_bind; [apply memcpy_quiet|]. intros _ st1 _.
  apply quiet_bind; [apply store_char_quiet|]. intros _ st2 _. reflexivity.
Qed.

Lemma try_checked_strcat_quiet w d dsz s st :
  quiet st (try_checked_strcat w d dsz s st).
Proof.
  unfold try_checked_strcat. destruct (dsz =? 0); [reflexivity|].
  apply quiet_bind; [apply strlen_quiet|]. intros dlen st1 _.
  apply quiet_bind; [apply strlen_quiet|]. intros slen st2 _.
  destruct (_ <? dlen); [reflexivity|].
  destruct (_ <? _); [reflexivity|]. apply append_quiet.
Qed.

Lemma checked_strcat_diagnosed w d dsz s st :
  diagnosed "checked_strcat" st (checked_strcat w d dsz s st).
Proof.
  pose proof (strlen_outcome d st) as Hd.
  destruct (strlen d st) as [dlen st1|st1|] eqn:Ed; [|tauto|].
  2:{ unfold checked_strcat, mbind, M_bind. now rewrite Ed. }
  destruct Hd as (-> & _).
  pose proof (strlen_outcome s st) as Hs.
  destruct (strlen s st) as [slen st1|st1|] eqn:Es; [|tauto|].
  2:{ unfold checked_strcat, mbind, M_bind. now rewrite Ed, Es. }
  destruct Hs as (-> & _).
  rewrite (checked_strcat_cases w _ _ _ _ _ _ Ed Es).
  repeat apply diagnosed_check. apply quiet_diagnosed, append_quiet.
Qed.

(** The abort family keeps its two channels apart, for every input: a call
    that returns has printed nothing, and a call that aborts has written no
    byte of memory and has printed exactly a message, the name of the
    operation and a newline.  The try family never aborts and never
    prints. *)
Theorem diagnostics_discipline w st d dsz off s ssz n ch :
  diagnosed "checked_memcpy" st (checked_memcpy d dsz s n st)
  /\ diagnosed "checked_memcpy_offset" st
       (checked_memcpy_offset w d dsz off s n st)
  /\ diagnosed "checked_memcpy_robust" st
       (checked_memcpy_robust d dsz s ssz n st)
  /\ diagnosed "checked_strcat" st (checked_strcat w d dsz s st)
  /\ diagnosed "checked_memcmp" st (checked_memcmp d dsz s ssz n st)
  /\ diagnosed "checked_strncmp" st (checked_strncmp d dsz s ssz n st)
  /\ diagnosed "checked_memset" st (checked_memset d dsz ch n st)
  /\ quiet st (try_checked_memcpy d dsz s n st)
  /\ quiet st (try_checked_memcpy_robust d dsz s ssz n st)
  /\ quiet st (try_checked_strcat w d dsz s st).
Proof.
  split.
  { rewrite checked_memcpy_cases. repeat apply diagnosed_check.
    apply quiet_diagnosed, memcpy_quiet. }
  split.
  { rewrite checked_memcpy_offset_cases. apply diagnosed_check.
    apply quiet_diagnosed, quiet_bind; [apply memcpy_quiet|].
    intros _ st1 _. reflexivity. }
  split.
  { rewrite checked_memcpy_robust_cases. apply diagnosed_check.
    apply quiet_diagnosed, memcpy_quiet. }
  split; [apply checked_strcat_diagnosed|].
  split.
  { rewrite checked_memcmp_cases. apply diagnosed_check.
    apply quiet_diagnosed, memcmp_quiet. }
  split.
  { rewrite checked_strncmp_cases. apply diagnosed_check.
    apply quiet_diagnosed, strncmp_quiet. }
  split.
  { rewrite checked_memset_cases. apply diagnosed_check.
    apply quiet_diagnosed, memset_quiet. }
  split.
  { unfold try_checked_memcpy. destruct (dsz <? n); [reflexivity|].
    apply quiet_bind; [apply memcpy_quiet|]. intros _ st1 _. reflexivity. }
  split; [|apply try_checked_strcat_quiet].
  unfold try_checked_memcpy_robust. destruct (_ || _); [reflexivity|].
  apply quiet_bind; [apply memcpy_quiet|]. intros _ st1 _. reflexivity.
Qed.

(** ** The validation of the copies, completely *)

Lemma raises_emitted {A} v api_name st :
  @raises A v api_name st (Aborted (emit [diagnostic v; api_name; newline] st)).
Proof. eexists. split; [apply handler_aborts | reflexivity]. Qed.

Lemma raises_other_message {A} v v' api_name st :
  @raises A v api_name st
    (Aborted (emit [diagnostic v'; api_name; newline] st)) ->
  diagnostic v = diagnostic v'.
Proof.
  intros H. apply (raises_same_message v v' api_name st _ H), raises_emitted.
Qed.

Lemma not_raises_memcpy v api_name d s n st :
  ~ raises v api_name st (memcpy d s n st).
Proof. intros (st' & _ & H). now apply memcpy_not_aborted in H. Qed.

(** [checked_memcpy] looks at the sizes first and at the pointers second:
    it reports the buffer overflow exactly when [count] exceeds the
    capacity, null pointers or not; the null pointer exactly when the sizes
    are in order and one of the two pointers is null; and in exactly the
    remaining case it is [memcpy]. *)
Theorem checked_memcpy_validation st d dsz s n :
  let out := checked_memcpy d dsz s n st in
  (raises (BufferOverflowSized dsz n) "checked_memcpy" st out <-> dsz < n)
  /\ (raises NullPointer "checked_memcpy" st out
      <-> n <= dsz /\ (s = BAD_PTR \/ d = BAD_PTR))
  /\ (out = memcpy d s n st
      <-> n <= dsz /\ s <> BAD_PTR /\ d <> BAD_PTR).
Proof.
  intros out. subst out. rewrite checked_memcpy_cases.
  destruct (dsz <? n) eqn:E1; [|destruct (_ || _) eqn:E2].
  - split; [split; [lia | intros _; apply raises_emitted]|].
    split; split; try lia.
    + intros H. apply raises_other_message in H. symmetry in H.
      apply sized_message_distinct in H as (? & ? & H). discriminate H.
    + intros H. symmetry in H. now apply memcpy_not_aborted in H.
  - split; [split; [|lia]|split; split; try lia].
    + intros H. apply raises_other_message, sized_message_distinct in H
        as (? & ? & H). discriminate H.
    + intros _. apply raises_emitted.
    + intros H. symmetry in H. now apply memcpy_not_aborted in H.
  - split; [split; [|lia]|split; split; try lia; try reflexivity].
    + intros H. now apply not_raises_memcpy in H.
    + intros H. now apply not_raises_memcpy in H.
Qed.

(** [checked_memcpy_robust] reports the generic buffer overflow, with no
    byte written, exactly when [count] exceeds the capacity of the
    destination or of the source; in exactly the other case it is [memcpy],
    whatever the pointers: it has no null-pointer check. *)
Theorem checked_memcpy_robust_validation st d dsz s ssz n :
  let out := checked_memcpy_robust d dsz s ssz n st in
  (raises BufferOverflow "checked_memcpy_robust" st out /\ no_write st out
   <-> dsz < n \/ ssz < n)
  /\ (out = memcpy d s n st <-> n <= dsz /\ n <= ssz)
  /\ ~ raises NullPointer "checked_memcpy_robust" st out.
Proof.
  intros out. subst out. rewrite checked_memcpy_robust_cases.
  destruct (_ || _) eqn:E.
  - split; [split; [lia|]|split; [split; [|lia]|]].
    + intros _. split; [apply raises_emitted | reflexivity].
    + intros H. symmetry in H. now apply memcpy_not_aborted in H.
    + intros H. apply raises_other_message in H. discriminate H.
  - split; [split; [|lia]|split; [split; [lia | reflexivity]|]].
    + intros [H _]. now apply not_raises_memcpy in H.
    + apply not_raises_memcpy.
Qed.

(** ** Writes stay inside the declared capacity *)

Lemma bind_returned_inv {A B} (c : M A) (k : A -> M B) st b st' :
  (c ≫= k) st = Returned b st' ->
  exists a st1, c st = Returned a st1 /\ k a st1 = Returned b st'.
Proof.
  unfold mbind, M_bind. destruct (c st) as [a st1|st1|]; [|discriminate..].
  intros H. now exists a, st1.
Qed.

Lemma memcpy_then_ret_returned {B} d s n (b r : B) st st' :
  (memcpy d s n;; mret b) st = Returned r st' ->
  r = b /\ memcpy d s n st = Returned d st'.
Proof.
  intros H. apply bind_returned_inv in H as (a & st1 & Hm & Hr).
  injection Hr as <- <-. split; [reflexivity|].
  now destruct (memcpy_returned _ _ _ _ _ _ Hm) as (-> & _).
Qed.

Lemma append_returned {B} a s n p (b r : B) st st' :
  (memcpy a s n;; store_char p 0;; mret b) st = Returned r st' ->
  r = b /\ exists st1,
    memcpy a s n st = Returned a st1 /\ store_char p 0 st1 = Returned tt st'.
Proof.
  intros H. apply bind_returned_inv in H as (a' & st1 & Hm & H).
  apply bind_returned_inv in H as ([] & st2 & Hs & Hr).
  injection Hr as <- <-. split; [reflexivity|]. exists st1.
  now destruct (memcpy_returned _ _ _ _ _ _ Hm) as (-> & _).
Qed.

Lemma unchanged_outside_refl st lo hi : unchanged_outside st st lo hi.
Proof. now split. Qed.

Lemma unchanged_outside_wider st st' lo hi lo' hi' :
  unchanged_outside st st' lo hi -> lo' <= lo -> hi <= hi' ->
  unchanged_outside st st' lo' hi'.
Proof. intros [Hl H] ? ?. split; [exact Hl|]. intros a Ha. apply H. lia. Qed.

Lemma unchanged_outside_trans st st1 st2 lo hi :
  unchanged_outside st st1 lo hi -> unchanged_outside st1 st2 lo hi ->
  unchanged_outside st st2 lo hi.
Proof.
  intros [Hl1 H1] [Hl2 H2]. split; [congruence|].
  intros a Ha. now rewrite H2, H1.
Qed.

Lemma copied_unchanged_outside st d s n st' :
  copied st d s n st' -> unchanged_outside st st' d (d + n).
Proof. intros (_ & Hl & _ & Ho). now split. Qed.

Lemma memcpy_in_capacity d dsz s n st r st' :
  n <= dsz -> memcpy d s n st = Returned r st' ->
  r = d /\ unchanged_outside st st' d (d + dsz).
Proof.
  intros Hn H. apply memcpy_returned in H as (-> & ? & _ & _ & _ & Hc).
  split; [reflexivity|].
  eapply unchanged_outside_wider;
    [exact (copied_unchanged_outside _ _ _ _ _ Hc) | lia | lia].
Qed.

(** No copy and no fill ever returns having changed a byte outside the
    declared capacity of its destination: whichever of the five operations
    returned, every byte outside [destination, destination + capacity) is as
    before, and memory has kept its size. *)
Theorem copy_and_fill_stay_in_capacity st d dsz s ssz n ch r st' :
  checked_memcpy d dsz s n st = Returned r st'
  \/ checked_memcpy_robust d dsz s ssz n st = Returned r st'
  \/ try_checked_memcpy d dsz s n st = Returned r st'
  \/ try_checked_memcpy_robust d dsz s ssz n st = Returned r st'
  \/ checked_memset d dsz ch n st = Returned r st' ->
  unchanged_outside st st' d (d + dsz).
Proof.
  intros [H|[H|[H|[H|H]]]].
  - rewrite checked_memcpy_cases in H.
    destruct (dsz <? n) eqn:E; [discriminate|].
    destruct (_ || _); [discriminate|].
    apply (memcpy_in_capacity d dsz) in H; [apply H | lia].
  - rewrite checked_memcpy_robust_cases in H.
    destruct (_ || _) eqn:E; [discriminate|].
    apply (memcpy_in_capacity d dsz) in H; [apply H | lia].
  - unfold try_checked_memcpy in H. destruct (dsz <? n) eqn:E.
    + injection H as _ <-. apply unchanged_outside_refl.
    + apply memcpy_then_ret_returned in H as [_ H].
      apply (memcpy_in_capacity d dsz) in H; [apply H | lia].
  - unfold try_checked_memcpy_robust in H. destruct (_ || _) eqn:E.
    + injection H as _ <-. apply unchanged_outside_refl.
    + apply memcpy_then_ret_returned in H as [_ H].
      apply (memcpy_in_capacity d dsz) in H; [apply H | lia].
  - rewrite checked_memset_cases in H.
    destruct (n >? dsz) eqn:E; [discriminate|].
    apply memset_returned in H as (_ & ? & _ & _ & Hu & _).
    eapply unchanged_outside_wider; [exact Hu | lia | lia].
Qed.

Lemma copy_and_fill_stay_in_capacity_witness :
  unchanged_outside demo_state
    (mkState [0; 98; 97; 114; 0; 7; 7; 7; 7; 98; 97; 114; 0; 9; 9] [])
    1 (1 + 8).
Proof.
  apply (copy_and_fill_stay_in_capacity demo_state 1 8 9 6 3 0 1).
  left. reflexivity.
Defined.

(** Where the address space fits [size_t], no concatenation ever returns
    having changed a byte outside the declared capacity of its
    destination. *)
Theorem concatenate_stays_in_capacity w st d dsz s r st' :
  is_size_t w dsz ->
  Z.of_nat (length (heap st)) <= 2 ^ w ->
  checked_strcat w d dsz s st = Returned r st'
  \/ try_checked_strcat w d dsz s st = Returned r st' ->
  unchanged_outside st st' d (d + dsz).
Proof.
  intros Hsz Hmem H.
  assert (Htail : forall dlen slen (b : Z),
             strlen d st = Returned dlen st ->
             strlen s st = Returned slen st ->
             (dsz =? 0) = false ->
             (size_add w dlen slen <? dlen) = false ->
             (size_sub w dsz 1 <? size_add w dlen slen) = false ->
             (memcpy (d + dlen) s slen;;
              store_char (d + dlen + slen) 0;; mret b) st = Returned r st' ->
             unchanged_outside st st' d (d + dsz)).
  { intros dlen slen b Hd Hs E0 E1 E2 Ht.
    pose proof (strlen_outcome d st) as Hdo. rewrite Hd in Hdo.
    pose proof (strlen_outcome s st) as Hso. rewrite Hs in Hso.
    destruct Hdo as (_ & Hd0 & Hdb). destruct Hso as (_ & Hs0 & Hsb).
    apply in_bounds_true in Hdb, Hsb.
    assert (Hdl : is_size_t w dlen) by (unfold is_size_t; lia).
    assert (Hsl : is_size_t w slen) by (unfold is_size_t; lia).
    destruct (size_add_wraps_iff w dlen slen Hdl Hsl) as [Hw _].
    assert (Hsum : dlen + slen < 2 ^ w) by lia.
    rewrite (size_add_exact w dlen slen) in E2 by lia.
    rewrite (size_pred w dsz Hsz) in E2 by lia.
    apply append_returned in Ht as (_ & st1 & Hm & Hc).
    apply memcpy_returned in Hm as (_ & _ & _ & _ & _ & Hcp).
    apply store_char_returned in Hc as (_ & _ & Hu & _).
    eapply unchanged_outside_trans.
    - eapply unchanged_outside_wider;
        [exact (copied_unchanged_outside _ _ _ _ _ Hcp) | lia | lia].
    - eapply unchanged_outside_wider; [exact Hu | lia | lia]. }
  pose proof (strlen_outcome d st) as Hd.
  pose proof (strlen_outcome s st) as Hs.
  destruct H as [H|H].
  - destruct (strlen d st) as [dlen st1|st1|] eqn:Ed.
    2,3: unfold checked_strcat, mbind at 1, M_bind at 1 in H;
         rewrite Ed in H; discriminate H.
    destruct Hd as (-> & _).
    destruct (strlen s st) as [slen st1|st1|] eqn:Es.
    2,3: unfold checked_strcat, mbind at 1, M_bind at 1 in H;
         rewrite Ed in H; unfold mbind at 1, M_bind at 1 in H;
         rewrite Es in H; discriminate H.
    destruct Hs as (-> & _).
    rewrite (checked_strcat_cases w _ _ _ _ _ _ Ed Es) in H.
    destruct (dsz =? 0) eqn:E0; [discriminate|].
    destruct (_ <? dlen) eqn:E1; [discriminate|].
    destruct (_ <? _) eqn:E2 in H; [discriminate|].
    now apply (Htail dlen slen d).
  - unfold try_checked_strcat in H. destruct (dsz =? 0) eqn:E0.
    { injection H as _ <-. apply unchanged_outside_refl. }
    apply bind_returned_inv in H as (dlen & st1 & Ed & H).
    rewrite Ed in Hd. destruct Hd as (-> & _).
    apply bind_returned_inv in H as (slen & st1 & Es & H).
    rewrite Es in Hs. destruct Hs as (-> & _).
    destruct (_ <? dlen) eqn:E1.
    { injection H as _ <-. apply unchanged_outside_refl. }
    destruct (_ <? _) eqn:E2 in H.
    { injection H as _ <-. apply unchanged_outside_refl. }
    now apply (Htail dlen slen 0).
Qed.

Lemma concatenate_stays_in_capacity_witness :
  unchanged_outside demo_state
    (mkState [0; 102; 111; 111; 98; 97; 114; 0; 7; 98; 97; 114; 0; 9; 9] [])
    1 (1 + 8).
Proof.
  apply (concatenate_stays_in_capacity 64 demo_state 1 8 9 1).
  - unfold is_size_t; simpl; lia.
  - simpl; lia.
  - left. reflexivity.
Defined.

(** ** Empty requests *)

Lemma memcpy_nothing d s st :
  in_bounds (heap st) d 0 = true -> in_bounds (heap st) s 0 = true ->
  memcpy d s 0 st = Returned d st.
Proof.
  intros Hd Hs. unfold memcpy. rewrite (load_bytes_in_bounds _ _ _ Hs).
  replace (regions_overlap d s 0) with false by (unfold regions_overlap; lia).
  change (Z.to_nat 0) with O. rewrite take_0.
  rewrite (store_bytes_in_bounds _ _ [] Hd).
  change (list_inserts (Z.to_nat d) [] (heap st)) with (heap st).
  now rewrite set_heap_same.
Qed.

Lemma memset_nothing d ch st :
  in_bounds (heap st) d 0 = true -> memset d ch 0 st = Returned d st.
Proof.
  intros Hd. unfold memset. change (0 <=? 0) with true.
  change (replicate (Z.to_nat 0) (to_uchar ch)) with (@nil Z).
  rewrite (store_bytes_in_bounds _ _ [] Hd).
  change (list_inserts (Z.to_nat d) [] (heap st)) with (heap st).
  now rewrite set_heap_same.
Qed.

(** A request for 0 bytes on valid pointers is accepted by every operation
    but the offset copy, whatever the capacities, and changes nothing at
    all: the copies and the fill return in the very state they were called
    in, and both comparisons return 0 without looking at a byte. *)
Theorem empty_requests st d dsz s ssz ch :
  0 <= dsz -> 0 <= ssz ->
  in_bounds (heap st) d 0 = true -> in_bounds (heap st) s 0 = true ->
  checked_memcpy d dsz s 0 st = Returned d st
  /\ checked_memcpy_robust d dsz s ssz 0 st = Returned d st
  /\ try_checked_memcpy d dsz s 0 st = Returned 0 st
  /\ try_checked_memcpy_robust d dsz s ssz 0 st = Returned 0 st
  /\ checked_memset d dsz ch 0 st = Returned d st
  /\ checked_memcmp d dsz s ssz 0 st = Returned 0 st
  /\ checked_strncmp d dsz s ssz 0 st = Returned 0 st.
Proof.
  intros Hdsz Hssz Hd Hs.
  pose proof (memcpy_nothing d s st Hd Hs) as Hm.
  pose proof Hd as Hd'. pose proof Hs as Hs'.
  apply in_bounds_true in Hd', Hs'.
  repeat split.
  - rewrite checked_memcpy_cases.
    replace (dsz <? 0) with false by lia.
    now replace ((s =? BAD_PTR) || (d =? BAD_PTR)) with false
      by (unfold BAD_PTR; lia).
  - rewrite checked_memcpy_robust_cases.
    now replace ((dsz <? 0) || (ssz <? 0)) with false by lia.
  - unfold try_checked_memcpy. replace (dsz <? 0) with false by lia.
    now apply bind_mret_returned with (a := d).
  - unfold try_checked_memcpy_robust.
    replace ((dsz <? 0) || (ssz <? 0)) with false by lia.
    now apply bind_mret_returned with (a := d).
  - rewrite checked_memset_cases. replace (0 >? dsz) with false by lia.
    now apply memset_nothing.
  - rewrite checked_memcmp_cases.
    replace ((0 >? dsz) || (0 >? ssz)) with false by lia.
    unfold memcmp. now rewrite !load_bytes_in_bounds.
  - rewrite checked_strncmp_cases.
    replace ((dsz <? 0) || (ssz <? 0)) with false by lia.
    unfold strncmp. now rewrite Hd, Hs.
Qed.

Lemma empty_requests_witness :
  checked_memcpy 1 8 9 0 demo_state = Returned 1 demo_state
  /\ checked_memcpy_robust 1 8 9 6 0 demo_state = Returned 1 demo_state
  /\ try_checked_memcpy 1 8 9 0 demo_state = Returned 0 demo_state
  /\ try_checked_memcpy_robust 1 8 9 6 0 demo_state = Returned 0 demo_state
  /\ checked_memset 1 8 65 0 demo_state = Returned 1 demo_state
  /\ checked_memcmp 1 8 9 6 0 demo_state = Returned 0 demo_state
  /\ checked_strncmp 1 8 9 6 0 demo_state = Returned 0 demo_state.
Proof.
  apply (empty_requests demo_state 1 8 9 6 65);
    [lia | lia | reflexivity | reflexivity].
Defined.

(** ** The offset copy where it is safe, and at its edges *)

(** When the copy ends inside the capacity, [offset + count <= capacity],
    [checked_memcpy_offset] copies the [count] source bytes to
    [destination + offset] and changes nothing else; what it returns is the
    destination itself, not the address written to. *)
Theorem offset_copy_within_capacity w st d dsz off s n :
  0 <= off < dsz -> 0 <= n -> off + n <= dsz ->
  in_bounds (heap st) d dsz = true ->
  in_bounds (heap st) s n = true ->
  regions_overlap (d + off) s n = false ->
  exists st',
    checked_memcpy_offset w d dsz off s n st = Returned d st'
    /\ copied st (d + off) s n st'
    /\ unchanged_outside st st' d (d + dsz).
Proof.
  intros Hoff Hn Hfit Hd Hs Ho.
  destruct (memcpy_copied st (d + off) s n) as (st' & Hm & Hc);
    [apply in_bounds_true in Hd; apply in_bounds_true; lia
    | exact Hs | exact Ho |].
  exists st'. split; [|split; [exact Hc|]].
  - rewrite checked_memcpy_offset_cases.
    replace ((dsz <? n) || (off >=? dsz)) with false by lia.
    now apply bind_mret_returned with (a := d + off).
  - eapply unchanged_outside_wider;
      [exact (copied_unchanged_outside _ _ _ _ _ Hc) | lia | lia].
Qed.

Lemma offset_copy_within_capacity_witness :
  exists st',
    checked_memcpy_offset 64 1 8 4 9 3 demo_state = Returned 1 st'
    /\ copied demo_state (1 + 4) 9 3 st'
    /\ unchanged_outside demo_state st' 1 (1 + 8).
Proof.
  apply (offset_copy_within_capacity 64 demo_state 1 8 4 9 3);
    [lia | lia | lia | reflexivity | reflexivity | reflexivity].
Defined.

(** At offset 0, in a destination of non-zero capacity and with non-null
    pointers, the offset copy of at most [capacity] bytes is the plain
    copy. *)
Theorem offset_zero_is_plain_copy w st d dsz s n :
  0 < dsz -> n <= dsz -> s <> BAD_PTR -> d <> BAD_PTR ->
  checked_memcpy_offset w d dsz 0 s n st = checked_memcpy d dsz s n st.
Proof.
  intros Hpos Hn Hs Hd.
  rewrite checked_memcpy_offset_cases, checked_memcpy_cases.
  replace ((dsz <? n) || (0 >=? dsz)) with false by lia.
  replace (dsz <? n) with false by lia.
  replace ((s =? BAD_PTR) || (d =? BAD_PTR)) with false by lia.
  rewrite Z.add_0_r. unfold mbind, M_bind.
  destruct (memcpy d s n st) as [r st'|st'|] eqn:E; [|reflexivity..].
  now apply memcpy_returned in E as (-> & _).
Qed.

Lemma offset_zero_is_plain_copy_witness :
  checked_memcpy_offset 64 1 8 0 9 3 demo_state
  = checked_memcpy 1 8 9 3 demo_state.
Proof.
  apply (offset_zero_is_plain_copy 64 demo_state 1 8 9 3);
    [lia | lia | discriminate | discriminate].
Defined.

(** The offset copy has no room for an empty destination: with a capacity
    of 0 it reports the buffer overflow for every offset and every count,
    the copy of 0 bytes at offset 0 included, which [checked_memcpy] on the
    same valid pointers accepts; and in any capacity it refuses the copy of
    0 bytes to the one-past-the-end offset. *)
Theorem offset_copy_refuses_empty_destination w st d dsz off s n :
  0 <= off ->
  let refused dsz' off' n' :=
    raises (BufferOverflowSized (size_sub w dsz' off') n')
      "checked_memcpy_offset" st
      (checked_memcpy_offset w d dsz' off' s n' st) in
  refused 0 off n
  /\ refused dsz dsz 0
  /\ (in_bounds (heap st) d 0 = true -> in_bounds (heap st) s 0 = true ->
      checked_memcpy d 0 s 0 st = Returned d st).
Proof.
  intros Hoff refused. subst refused. simpl.
  split; [|split].
  - rewrite checked_memcpy_offset_cases.
    replace ((0 <? n) || (off >=? 0)) with true by lia. apply raises_emitted.
  - rewrite checked_memcpy_offset_cases.
    replace ((dsz <? 0) || (dsz >=? dsz)) with true by lia.
    apply raises_emitted.
  - intros Hd Hs. rewrite checked_memcpy_cases. change (0 <? 0) with false.
    pose proof Hd as Hd'. pose proof Hs as Hs'.
    apply in_bounds_true in Hd', Hs'.
    replace ((s =? BAD_PTR) || (d =? BAD_PTR)) with false
      by (unfold BAD_PTR; lia).
    now apply memcpy_nothing.
Qed.

Lemma offset_copy_refuses_empty_destination_witness :
  raises (BufferOverflowSized (size_sub 64 0 0) 0) "checked_memcpy_offset"
    demo_state (checked_memcpy_offset 64 1 0 0 9 0 demo_state)
  /\ raises (BufferOverflowSized (size_sub 64 8 8) 0) "checked_memcpy_offset"
       demo_state (checked_memcpy_offset 64 1 8 8 9 0 demo_state)
  /\ (in_bounds (heap demo_state) 1 0 = true ->
      in_bounds (heap demo_state) 9 0 = true ->
      checked_memcpy 1 0 9 0 demo_state = Returned 1 demo_state).
Proof.
  apply (offset_copy_refuses_empty_destination 64 demo_state 1 8 0 9 0). lia.
Defined.

(** ** The two families side by side *)

Lemma raises_emitted_iff {A} v v' api_name st :
  @raises A v api_name st
    (Aborted (emit [diagnostic v'; api_name; newline] st))
  <-> diagnostic v = diagnostic v'.
Proof.
  split; [apply raises_other_message|].
  intros H. rewrite <- H. apply raises_emitted.
Qed.

Lemma not_raises_returned {A} v api_name st (a : A) st' :
  ~ raises v api_name st (Returned a st').
Proof. now intros (? & _ & H). Qed.

Lemma not_raises_undefined {A} v api_name st :
  ~ @raises A v api_name st Undefined.
Proof. now intros (? & _ & H). Qed.

(** The try copies are the checked copies with the abort turned into the
    code: the robust pair returns together, in the same final state, the
    checked one with the destination and the try one with 0; the checked
    one aborts exactly when the try one returns the buffer-overflow code in
    the state of the call; and one is undefined exactly when the other is.
    The plain pair agrees likewise on success and on the overflow, up to
    the null-pointer check that only [checked_memcpy] has. *)
Theorem try_copies_mirror_checked st d dsz s ssz n :
  (forall st',
     checked_memcpy_robust d dsz s ssz n st = Returned d st'
     <-> try_checked_memcpy_robust d dsz s ssz n st = Returned 0 st')
  /\ (raises BufferOverflow "checked_memcpy_robust" st
        (checked_memcpy_robust d dsz s ssz n st)
      <-> try_checked_memcpy_robust d dsz s ssz n st
          = Returned ERR_POTENTIAL_BUFFER_OVERFLOW st)
  /\ (checked_memcpy_robust d dsz s ssz n st = Undefined
      <-> try_checked_memcpy_robust d dsz s ssz n st = Undefined)
  /\ (forall st',
        checked_memcpy d dsz s n st = Returned d st'
        <-> try_checked_memcpy d dsz s n st = Returned 0 st'
            /\ s <> BAD_PTR /\ d <> BAD_PTR)
  /\ (raises (BufferOverflowSized dsz n) "checked_memcpy" st
        (checked_memcpy d dsz s n st)
      <-> try_checked_memcpy d dsz s n st
          = Returned ERR_POTENTIAL_BUFFER_OVERFLOW st).
Proof.
  assert (Hm : forall st' : state,
             (memcpy d s n st = Returned d st'
              <-> (memcpy d s n;; mret 0) st = Returned 0 st')
             /\ (memcpy d s n;; mret 0) st
                <> Returned ERR_POTENTIAL_BUFFER_OVERFLOW st
             /\ (memcpy d s n st = Undefined
                 <-> (memcpy d s n;; mret 0) st = Undefined)).
  { intros st'. unfold mbind, M_bind.
    destruct (memcpy d s n st) as [r st1|st1|] eqn:E.
    - apply memcpy_returned in E as (-> & _).
      split; [split; intros [= ->]; reflexivity|].
      split; [discriminate | split; discriminate].
    - now apply memcpy_not_aborted in E.
    - split; [split; discriminate|]. split; [discriminate | tauto]. }
  split; [|split; [|split; [|split]]].
  - intros st'. rewrite checked_memcpy_robust_cases.
    unfold try_checked_memcpy_robust.
    destruct (_ || _); [split; discriminate | apply Hm].
  - rewrite checked_memcpy_robust_cases. unfold try_checked_memcpy_robust.
    destruct (_ || _).
    + split; [reflexivity | intros _; apply raises_emitted].
    + split; [intros H; now apply not_raises_memcpy in H|].
      intros H. now apply (Hm st) in H.
  - rewrite checked_memcpy_robust_cases. unfold try_checked_memcpy_robust.
    destruct (_ || _); [split; discriminate | apply (Hm st)].
  - intros st'. rewrite checked_memcpy_cases. unfold try_checked_memcpy.
    destruct (dsz <? n); [split; [discriminate | intros [H _]; discriminate]|].
    destruct (_ || _) eqn:E.
    + split; [discriminate | intros (_ & H1 & H2); lia].
    + destruct (Hm st') as [-> _]. split; [|tauto].
      intros H. split; [exact H | lia].
  - rewrite checked_memcpy_cases. unfold try_checked_memcpy.
    destruct (dsz <? n).
    + split; [reflexivity | intros _; apply raises_emitted].
    + split; [|intros H; now apply (Hm st) in H].
      destruct (_ || _).
      * intros H. apply raises_emitted_iff, sized_message_distinct in H
          as (? & ? & H). discriminate H.
      * intros H. now apply not_raises_memcpy in H.
Qed.

Lemma append_mirror d dlen s slen st :
  forall st' : state,
    ((memcpy (d + dlen) s slen;; store_char (d + dlen + slen) 0;; mret d) st
     = Returned d st'
     <-> (memcpy (d + dlen) s slen;; store_char (d + dlen + slen) 0;; mret 0)
           st = Returned 0 st')
    /\ (forall c, c <> 0 ->
          (memcpy (d + dlen) s slen;; store_char (d + dlen + slen) 0;; mret 0)
            st <> Returned c st')
    /\ (forall v, ~ raises v "checked_strcat" st
          ((memcpy (d + dlen) s slen;; store_char (d + dlen + slen) 0;;
            mret d) st)).
Proof.
  intros st'. unfold mbind, M_bind.
  pose proof (memcpy_not_aborted (d + dlen) s slen st) as Hna.
  destruct (memcpy (d + dlen) s slen st) as [r st1|st1|].
  - unfold store_char.
    destruct (store_bytes (heap st1) (d + dlen + slen) [to_uchar 0]).
    + split; [split; intros [= ->]; reflexivity|].
      split; [intros c Hc [= H]; congruence|].
      intros v. apply not_raises_returned.
    + split; [split; discriminate|]. split; [discriminate|].
      intros v. apply not_raises_undefined.
  - now destruct (Hna st1).
  - split; [split; discriminate|]. split; [discriminate|].
    intros v. apply not_raises_undefined.
Qed.

(** The try concatenation is the checked concatenation with the abort
    turned into the code: the two return together, in the same final state,
    one with the destination and the other with 0; the checked one reports
    the integer overflow exactly when the try one returns the
    integer-overflow code in the state of the call; and the try one returns
    the buffer-overflow code, again in the state of the call, exactly when
    the capacity is 0 or the checked one reports the buffer overflow. *)
Theorem try_concatenate_mirrors_checked w st d dsz s :
  (forall st',
     checked_strcat w d dsz s st = Returned d st'
     <-> try_checked_strcat w d dsz s st = Returned 0 st')
  /\ (raises IntegerOverflow "checked_strcat" st (checked_strcat w d dsz s st)
      <-> try_checked_strcat w d dsz s st
          = Returned ERR_POTENTIAL_INTEGER_OVERFLOW st)
  /\ (try_checked_strcat w d dsz s st
      = Returned ERR_POTENTIAL_BUFFER_OVERFLOW st
      <-> dsz = 0
          \/ exists a b,
               raises (BufferOverflowSized a b) "checked_strcat" st
                 (checked_strcat w d dsz s st)).
Proof.
  pose proof (strlen_outcome d st) as Hd.
  pose proof (strlen_outcome s st) as Hs.
  assert (Hsized : forall a b v,
             (forall x y, v <> BufferOverflowSized x y) ->
             ~ @raises Z (BufferOverflowSized a b) "checked_strcat" st
                 (Aborted (emit [diagnostic v; "checked_strcat"; newline] st))).
  { intros a b v Hv H.
    apply raises_emitted_iff, sized_message_distinct in H as (x & y & H).
    now apply (Hv x y). }
  destruct (strlen d st) as [dlen st1|st1|] eqn:Ed; [|tauto|].
  2:{ assert (Hc : checked_strcat w d dsz s st = Undefined)
        by (unfold checked_strcat, mbind, M_bind; now rewrite Ed).
      assert (Ht : try_checked_strcat w d dsz s st
                   = if dsz =? 0
                     then Returned ERR_POTENTIAL_BUFFER_OVERFLOW st
                     else Undefined).
      { unfold try_checked_strcat. destruct (dsz =? 0); [reflexivity|].
        unfold mbind, M_bind. now rewrite Ed. }
      rewrite Hc, Ht. destruct (dsz =? 0) eqn:E0.
      - split; [split; discriminate|]. split.
        + split; [intros H; now apply not_raises_undefined in H
                 | discriminate].
        + split; [intros _; left; lia | reflexivity].
      - split; [split; discriminate|]. split.
        + split; [intros H; now apply not_raises_undefined in H
                 | discriminate].
        + split; [discriminate|]. intros [H|(a & b & H)]; [lia|].
          now apply not_raises_undefined in H. }
  destruct Hd as (-> & _).
  destruct (strlen s st) as [slen st1|st1|] eqn:Es; [|tauto|].
  2:{ assert (Hc : checked_strcat w d dsz s st = Undefined)
        by (unfold checked_strcat, mbind, M_bind; now rewrite Ed, Es).
      assert (Ht : try_checked_strcat w d dsz s st
                   = if dsz =? 0
                     then Returned ERR_POTENTIAL_BUFFER_OVERFLOW st
                     else Undefined).
      { unfold try_checked_strcat. destruct (dsz =? 0); [reflexivity|].
        unfold mbind, M_bind. now rewrite Ed, Es. }
      rewrite Hc, Ht. destruct (dsz =? 0) eqn:E0.
      - split; [split; discriminate|]. split.
        + split; [intros H; now apply not_raises_undefined in H
                 | discriminate].
        + split; [intros _; left; lia | reflexivity].
      - split; [split; discriminate|]. split.
        + split; [intros H; now apply not_raises_undefined in H
                 | discriminate].
        + split; [discriminate|]. intros [H|(a & b & H)]; [lia|].
          now apply not_raises_undefined in H. }
  destruct Hs as (-> & _).
  rewrite (checked_strcat_cases w _ _ _ _ _ _ Ed Es).
  rewrite (try_checked_strcat_steps w _ _ _ _ _ _ Ed Es).
  destruct (dsz =? 0) eqn:E0;
    [|destruct (size_add w dlen slen <? dlen) eqn:E1;
      [|destruct (size_sub w dsz 1 <? size_add w dlen slen) eqn:E2]].
  - split; [split; discriminate|]. split.
    + split; [|discriminate]. intros H.
      apply raises_emitted_iff in H. symmetry in H.
      apply sized_message_distinct in H as (? & ? & H). discriminate H.
    + split; [intros _; left; lia | reflexivity].
  - split; [split; discriminate|]. split.
    + split; [reflexivity | intros _; apply raises_emitted].
    + split; [discriminate|]. intros [H|(a & b & H)]; [lia|].
      now apply (Hsized a b IntegerOverflow) in H.
  - split; [split; discriminate|]. split.
    + split; [|discriminate]. intros H.
      apply raises_emitted_iff in H. symmetry in H.
      apply sized_message_distinct in H as (? & ? & H). discriminate H.
    + split; [|reflexivity]. intros _. right.
      eexists _, _. apply raises_emitted.
  - destruct (append_mirror d dlen s slen st st) as (_ & Hne & Hnr).
    split; [intros st'; apply append_mirror|]. split.
    + split; [intros H; now apply Hnr in H|].
      intros H. now apply Hne in H.
    + split; [intros H; now apply Hne in H|].
      intros [H|(a & b & H)]; [lia | now apply Hnr in H].
Qed.

(** ** Copy, then compare *)

Lemma copy_succeeded st d dsz s ssz n st' :
  checked_memcpy d dsz s n st = Returned d st'
  \/ checked_memcpy_robust d dsz s ssz n st = Returned d st'
  \/ try_checked_memcpy d dsz s n st = Returned 0 st'
  \/ try_checked_memcpy_robust d dsz s ssz n st = Returned 0 st' ->
  n <= dsz /\ memcpy d s n st = Returned d st'.
Proof.
  intros [H|[H|[H|H]]].
  - rewrite checked_memcpy_cases in H.
    destruct (dsz <? n) eqn:E; [discriminate|].
    destruct (_ || _); [discriminate|]. split; [lia | exact H].
  - rewrite checked_memcpy_robust_cases in H.
    destruct (_ || _) eqn:E; [discriminate|]. split; [lia | exact H].
  - unfold try_checked_memcpy in H.
    destruct (dsz <? n) eqn:E; [discriminate|].
    apply memcpy_then_ret_returned in H as [_ H]. split; [lia | exact H].
  - unfold try_checked_memcpy_robust in H.
    destruct (_ || _) eqn:E; [discriminate|].
    apply memcpy_then_ret_returned in H as [_ H]. split; [lia | exact H].
Qed.

Lemma lex_verdict_same r l : lex_verdict r l l -> r = 0.
Proof. intros [H _]. now apply H. Qed.

(** After any of the four copies has succeeded, comparing the destination
    with the source over the [count] bytes copied returns 0, bytewise and as
    strings: the copy can be checked by the library's own comparison, and it
    has left the source as it was. *)
Theorem copy_then_compare_equal st d dsz s ssz n st' :
  checked_memcpy d dsz s n st = Returned d st'
  \/ checked_memcpy_robust d dsz s ssz n st = Returned d st'
  \/ try_checked_memcpy d dsz s n st = Returned 0 st'
  \/ try_checked_memcpy_robust d dsz s ssz n st = Returned 0 st' ->
  n <= ssz ->
  checked_memcmp d dsz s ssz n st' = Returned 0 st'
  /\ checked_strncmp d dsz s ssz n st' = Returned 0 st'
  /\ load_bytes (heap st') s n = load_bytes (heap st) s n.
Proof.
  intros H Hss. apply copy_succeeded in H as [Hn Hm].
  apply memcpy_returned in Hm as (_ & Hn0 & Hd & Hs & Ho & Hc).
  destruct Hc as (_ & Hlen & Hin & Hout).
  pose proof (load_bytes_in_bounds _ _ _ Hs) as Hl.
  set (bs := take (Z.to_nat n) (drop (Z.to_nat s) (heap st))) in *.
  assert (Hbs : length bs = Z.to_nat n) by exact (load_bytes_length _ _ _ _ Hl).
  assert (Hd' : in_bounds (heap st') d n = true)
    by (apply in_bounds_true; apply in_bounds_true in Hd; lia).
  assert (Hs' : in_bounds (heap st') s n = true)
    by (apply in_bounds_true; apply in_bounds_true in Hs; lia).
  assert (Hld : load_bytes (heap st') d n = Some bs).
  { apply load_bytes_from_byte_at; [exact Hd' | exact Hbs|].
    intros i Hi. rewrite Hin by lia.
    now apply load_bytes_byte_at with (n := n). }
  assert (Hls : load_bytes (heap st') s n = Some bs).
  { apply load_bytes_from_byte_at; [exact Hs' | exact Hbs|].
    intros i Hi. rewrite Hout by (unfold regions_overlap in Ho; lia).
    now apply load_bytes_byte_at with (n := n). }
  split; [|split; [|congruence]].
  - rewrite checked_memcmp_cases.
    replace ((n >? dsz) || (n >? ssz)) with false by lia.
    unfold memcmp. rewrite Hld, Hls. f_equal.
    apply (lex_verdict_same _ bs), memcmp_bytes_verdict. reflexivity.
  - rewrite checked_strncmp_cases.
    replace ((dsz <? n) || (ssz <? n)) with false by lia.
    unfold strncmp.
    rewrite (in_bounds_weaken _ _ _ 0 Hd'), (in_bounds_weaken _ _ _ 0 Hs')
      by lia.
    replace (0 <=? n) with true by lia. simpl.
    apply in_bounds_true in Hd', Hs'.
    destruct (strncmp_bytes_verdict (Z.to_nat n)
                (drop (Z.to_nat d) (heap st')) (drop (Z.to_nat s) (heap st')))
      as (r & Hr & Hv); [rewrite length_drop; lia..|].
    rewrite Hr. f_equal.
    rewrite (load_bytes_in_bounds (heap st') d n) in Hld
      by (apply in_bounds_true; lia).
    rewrite (load_bytes_in_bounds (heap st') s n) in Hls
      by (apply in_bounds_true; lia).
    injection Hld as Hld. injection Hls as Hls.
    simpl in Hv. rewrite Hld, Hls in Hv.
    now apply lex_verdict_same in Hv.
Qed.

Lemma copy_then_compare_equal_witness :
  let st' := mkState [0; 98; 97; 114; 0; 7; 7; 7; 7; 98; 97; 114; 0; 9; 9] [] in
  checked_memcmp 1 8 9 6 3 st' = Returned 0 st'
  /\ checked_strncmp 1 8 9 6 3 st' = Returned 0 st'
  /\ load_bytes (heap st') 9 3 = load_bytes (heap demo_state) 9 3.
Proof.
  apply (copy_then_compare_equal demo_state 1 8 9 6 3);
    [left; reflexivity | lia].
Defined.

(** ** Comparisons against each other *)

Lemma memcmp_bytes_swap l1 : forall l2,
  memcmp_bytes l2 l1 = - memcmp_bytes l1 l2.
Proof.
  induction l1 as [|c1 t1 IH]; intros [|c2 t2]; simpl; try reflexivity.
  rewrite (Z.eqb_sym c2 c1). destruct (c1 =? c2); [apply IH | lia].
Qed.

Lemma strncmp_bytes_swap n : forall l1 l2,
  strncmp_bytes n l2 l1 = Z.opp <$> strncmp_bytes n l1 l2.
Proof.
  induction n as [|n IH]; intros l1 l2; [reflexivity|].
  destruct l1 as [|c1 t1], l2 as [|c2 t2]; simpl; try reflexivity.
  rewrite (Z.eqb_sym c2 c1). destruct (c1 =? c2) eqn:E.
  - replace c2 with c1 by lia. destruct (c1 =? 0); [reflexivity | apply IH].
  - simpl. f_equal. lia.
Qed.



Lemma checked_memcmp_returned p1 sz1 p2 sz2 n st r st' :
  checked_memcmp p1 sz1 p2 sz2 n st = Returned r st' ->
  st' = st /\ n <= sz1 /\ n <= sz2
  /\ in_bounds (heap st) p1 n = true /\ in_bounds (heap st) p2 n = true
  /\ r = memcmp_bytes (take (Z.to_nat n) (drop (Z.to_nat p1) (heap st)))
           (take (Z.to_nat n) (drop (Z.to_nat p2) (heap st))).
Proof.
  rewrite checked_memcmp_cases. destruct (_ || _) eqn:E; [discriminate|].
  unfold memcmp, load_bytes.
  destruct (in_bounds (heap st) p1 n); [|discriminate].
  destruct (in_bounds (heap st) p2 n); [|discriminate].
  intros [= <- <-]. repeat split; try reflexivity; lia.
Qed.

Lemma checked_strncmp_returned p1 sz1 p2 sz2 n st r st' :
  checked_strncmp p1 sz1 p2 sz2 n st = Returned r st' ->
  st' = st /\ 0 <= n /\ n <= sz1 /\ n <= sz2
  /\ in_bounds (heap st) p1 0 = true /\ in_bounds (heap st) p2 0 = true
  /\ strncmp_bytes (Z.to_nat n) (drop (Z.to_nat p1) (heap st))
       (drop (Z.to_nat p2) (heap st)) = Some r.
Proof.
  rewrite checked_strncmp_cases. destruct (_ || _) eqn:E; [discriminate|].
  unfold strncmp.
  destruct (in_bounds (heap st) p1 0); [|discriminate].
  destruct (in_bounds (heap st) p2 0); [|discriminate].
  destruct (0 <=? n) eqn:En; [|discriminate]. simpl.
  destruct (strncmp_bytes _ _ _) as [r0|]; [|discriminate].
  intros [= <- <-]. repeat split; try reflexivity; lia.
Qed.

(** Each comparison that returns has changed nothing, neither memory nor
    the diagnostic stream, and each is antisymmetric on its own: the
    comparison of the same operands in the other order returns too, with
    the opposite sign; so an operand compared with itself gives 0. *)
Theorem compare_swapped st p1 sz1 p2 sz2 n :
  (forall rm st1,
     checked_memcmp p1 sz1 p2 sz2 n st = Returned rm st1 ->
     st1 = st
     /\ (exists rm', checked_memcmp p2 sz2 p1 sz1 n st = Returned rm' st
                     /\ Z.sgn rm' = - Z.sgn rm)
     /\ (p1 = p2 -> rm = 0))
  /\ (forall rs st2,
        checked_strncmp p1 sz1 p2 sz2 n st = Returned rs st2 ->
        st2 = st
        /\ (exists rs', checked_strncmp p2 sz2 p1 sz1 n st = Returned rs' st
                        /\ Z.sgn rs' = - Z.sgn rs)
        /\ (p1 = p2 -> rs = 0)).
Proof.
  split.
  - intros rm st1 Hm.
    apply checked_memcmp_returned in Hm as (-> & H1 & H2 & Hb1 & Hb2 & Hrm).
    split; [reflexivity|]. split.
    + exists (- rm). split; [|apply Z.sgn_opp].
      rewrite checked_memcmp_cases.
      replace ((n >? sz2) || (n >? sz1)) with false by lia.
      unfold memcmp. rewrite !load_bytes_in_bounds by assumption.
      now rewrite memcmp_bytes_swap, <- Hrm.
    + intros <-.
      match type of Hrm with _ = memcmp_bytes ?l _ =>
        pose proof (memcmp_bytes_swap l l) as H end.
      rewrite <- Hrm in H. lia.
  - intros rs st2 Hs.
    apply checked_strncmp_returned in Hs
      as (-> & Hn & H1 & H2 & Hz1 & Hz2 & Hrs).
    split; [reflexivity|]. split.
    + exists (- rs). split; [|apply Z.sgn_opp].
      rewrite checked_strncmp_cases.
      replace ((sz2 <? n) || (sz1 <? n)) with false by lia.
      unfold strncmp. rewrite Hz1, Hz2.
      replace (0 <=? n) with true by lia. simpl.
      now rewrite strncmp_bytes_swap, Hrs.
    + intros <-.
      match type of Hrs with strncmp_bytes ?k ?l _ = _ =>
        pose proof (strncmp_bytes_swap k l l) as H end.
      rewrite Hrs in H. injection H as H. lia.
Qed.

Lemma compare_swapped_witness :
  (demo_state = demo_state
   /\ (exists rm', checked_memcmp 9 6 1 8 3 demo_state = Returned rm' demo_state
                   /\ Z.sgn rm' = - Z.sgn 4)
   /\ (1 = 9 -> 4 = 0))
  /\ (mkState [0; 97; 0; 98; 0] [] = mkState [0; 97; 0; 98; 0] []
      /\ (exists rs',
            checked_strncmp 1 3 3 3 3 (mkState [0; 97; 0; 98; 0] [])
            = Returned rs' (mkState [0; 97; 0; 98; 0] [])
            /\ Z.sgn rs' = - Z.sgn 1)
      /\ (3 = 1 -> 1 = 0)).
Proof.
  split.
  - apply (proj1 (compare_swapped demo_state 1 8 9 6 3) 4 demo_state).
    reflexivity.
  - apply (proj2 (compare_swapped (mkState [0; 97; 0; 98; 0] []) 3 3 1 3 3)
             1 (mkState [0; 97; 0; 98; 0] [])).
    reflexivity.
Defined.

(** The string comparison returns where the byte comparison is undefined:
    "b" against "a", three characters asked for, with the memory ending
    right behind the terminator of "b". *)
Example string_compare_alone :
  checked_strncmp 3 3 1 3 3 (mkState [0; 97; 0; 98; 0] [])
  = Returned 1 (mkState [0; 97; 0; 98; 0] [])
  /\ checked_memcmp 3 3 1 3 3 (mkState [0; 97; 0; 98; 0] []) = Undefined.
Proof. split; reflexivity. Qed.



(** ** The message buffer is large enough *)

(** For sizes of up to 64 bits the 128-byte buffer of
    [buffer_overflow_error_with_size] holds the whole message:
    [snprintf] cuts nothing off, and what is printed is the fixed text with
    both sizes in full; it is at most 123 characters long. *)
Theorem overflow_message_is_never_cut destination_size writing_size :
  0 <= destination_size < 2 ^ 64 ->
  0 <= writing_size < 2 ^ 64 ->
  overflow_size_msg destination_size writing_size
  = overflow_size_text destination_size writing_size
  /\ (String.length (overflow_size_msg destination_size writing_size)
      <= 123)%nat
  /\ forall api_name st,
       buffer_overflow_error_with_size api_name destination_size writing_size
         st
       = Aborted (emit [overflow_size_text destination_size writing_size;
                        api_name; newline] st).
Proof.
  intros Hd Hw.
  pose proof (fmt_zu_length _ Hd) as Ld. pose proof (fmt_zu_length _ Hw) as Lw.
  assert (Hlen : (String.length
                    (overflow_size_text destination_size writing_size)
                  <= 123)%nat).
  { unfold overflow_size_text. rewrite !string_length_app.
    simpl String.length. lia. }
  assert (Heq : overflow_size_msg destination_size writing_size
                = overflow_size_text destination_size writing_size).
  { unfold overflow_size_msg, snprintf_keep.
    apply substring_whole.
    fold (overflow_size_text destination_size writing_size). lia. }
  split; [exact Heq|]. split; [now rewrite Heq|].
  intros api_name st. rewrite <- Heq.
  exact (handler_aborts (BufferOverflowSized destination_size writing_size)
           api_name st).
Qed.

Lemma overflow_message_is_never_cut_witness :
  overflow_size_msg 18446744073709551615 18446744073709551615
  = overflow_size_text 18446744073709551615 18446744073709551615
  /\ (String.length
        (overflow_size_msg 18446744073709551615 18446744073709551615)
      <= 123)%nat
  /\ forall api_name st,
       buffer_overflow_error_with_size api_name 18446744073709551615
         18446744073709551615 st
       = Aborted (emit [overflow_size_text 18446744073709551615
                          18446744073709551615;
                        api_name; newline] st).
Proof.
  apply (overflow_message_is_never_cut 18446744073709551615
           18446744073709551615);
    (split; [lia | reflexivity]).
Defined.

(** ** Memory stays a sequence of bytes *)

Lemma ends_in_bind {A B} P (c : M A) (k : A -> M B) st :
  ends_in P (c st) ->
  (forall a st1, P st1 -> ends_in P (k a st1)) ->
  ends_in P ((c ≫= k) st).
Proof.
  unfold mbind, M_bind. destruct (c st) as [a st1|st1|]; simpl; auto.
Qed.

Lemma ends_in_check {B} P (b : bool) msgs st (out : outcome B) :
  P (emit msgs st) -> ends_in P out ->
  ends_in P (if b then Aborted (emit msgs st) else out).
Proof. now destruct b. Qed.

Lemma to_uchar_byte ch : 0 <= to_uchar ch < 256.
Proof. rewrite to_uchar_low_byte. apply Z.mod_pos_bound. lia. Qed.

Lemma store_bytes_byte_heap st p bs h' :
  byte_heap st -> Forall (fun b => 0 <= b < 256) bs ->
  store_bytes (heap st) p bs = Some h' -> byte_heap (set_heap h' st).
Proof.
  unfold store_bytes, byte_heap. intros Hh Hbs.
  destruct (in_bounds _ _ _); [|discriminate]. intros [= <-]. simpl.
  now apply Forall_inserts.
Qed.

Lemma memcpy_byte_heap d s n st :
  byte_heap st -> ends_in byte_heap (memcpy d s n st).
Proof.
  intros Hh. unfold memcpy.
  destruct (load_bytes (heap st) s n) as [bs|] eqn:El; [|exact I].
  destruct (regions_overlap d s n); [exact I|].
  destruct (store_bytes (heap st) d bs) as [h'|] eqn:Es; [|exact I].
  simpl. apply (store_bytes_byte_heap st d bs); [exact Hh| |exact Es].
  unfold load_bytes in El. destruct (in_bounds _ _ _); [|discriminate].
  injection El as <-. now apply Forall_take, Forall_drop.
Qed.

Lemma memset_byte_heap d ch n st :
  byte_heap st -> ends_in byte_heap (memset d ch n st).
Proof.
  intros Hh. unfold memset. destruct (0 <=? n); [|exact I].
  destruct (store_bytes _ _ _) as [h'|] eqn:Es; [|exact I].
  simpl. eapply store_bytes_byte_heap; [exact Hh| |exact Es].
  apply Forall_replicate, to_uchar_byte.
Qed.

Lemma store_char_byte_heap p c st :
  byte_heap st -> ends_in byte_heap (store_char p c st).
Proof.
  intros Hh. unfold store_char.
  destruct (store_bytes _ _ _) as [h'|] eqn:Es; [|exact I].
  simpl. eapply store_bytes_byte_heap; [exact Hh| |exact Es].
  repeat constructor; apply to_uchar_byte.
Qed.

Lemma strlen_byte_heap p st :
  byte_heap st -> ends_in byte_heap (strlen p st).
Proof.
  intros Hh. pose proof (strlen_outcome p st) as H.
  destruct (strlen p st); simpl; [now destruct H as [-> _] | tauto | exact I].
Qed.

Lemma append_byte_heap {B} a s n p (r : B) st :
  byte_heap st ->
  ends_in byte_heap ((memcpy a s n;; store_char p 0;; mret r) st).
Proof.
  intros Hh. apply ends_in_bind; [now apply memcpy_byte_heap|].
  intros _ st1 H1. apply ends_in_bind; [now apply store_char_byte_heap|].
  intros _ st2 H2. exact H2.
Qed.

(** Every operation keeps memory a sequence of bytes: if each cell holds
    a value from 0 to 255 before the call, each cell does in whatever state
    the call leaves, returning or aborting; what the fill stores is the
    fill value reduced to an [unsigned char]. *)
Theorem operations_keep_bytes w st d dsz off s ssz n ch :
  byte_heap st ->
  ends_in byte_heap (checked_memcpy d dsz s n st)
  /\ ends_in byte_heap (checked_memcpy_offset w d dsz off s n st)
  /\ ends_in byte_heap (checked_memcpy_robust d dsz s ssz n st)
  /\ ends_in byte_heap (try_checked_memcpy d dsz s n st)
  /\ ends_in byte_heap (try_checked_memcpy_robust d dsz s ssz n st)
  /\ ends_in byte_heap (checked_strcat w d dsz s st)
  /\ ends_in byte_heap (try_checked_strcat w d dsz s st)
  /\ ends_in byte_heap (checked_memcmp d dsz s ssz n st)
  /\ ends_in byte_heap (checked_strncmp d dsz s ssz n st)
  /\ ends_in byte_heap (checked_memset d dsz ch n st).
Proof.
  intros Hh.
  assert (Hret : forall (b : Z) a,
             ends_in byte_heap ((memcpy a s n;; mret b) st)).
  { intros b a. apply ends_in_bind; [now apply memcpy_byte_heap|].
    intros _ st1 H1. exact H1. }
  repeat split.
  - rewrite checked_memcpy_cases.
    repeat (apply ends_in_check; [exact Hh|]). now apply memcpy_byte_heap.
  - rewrite checked_memcpy_offset_cases.
    apply ends_in_check; [exact Hh | apply Hret].
  - rewrite checked_memcpy_robust_cases.
    apply ends_in_check; [exact Hh | now apply memcpy_byte_heap].
  - unfold try_checked_memcpy. destruct (dsz <? n); [exact Hh | apply Hret].
  - unfold try_checked_memcpy_robust.
    destruct (_ || _); [exact Hh | apply Hret].
  - unfold checked_strcat.
    apply ends_in_bind; [now apply strlen_byte_heap|]. intros dlen st1 H1.
    apply ends_in_bind; [now apply strlen_byte_heap|]. intros slen st2 H2.
    cbv zeta.
    rewrite (when_raise _ (BufferOverflowSized dsz (size_add w dlen slen))
               "checked_strcat").
    apply ends_in_check; [exact H2|].
    rewrite (when_raise _ IntegerOverflow "checked_strcat").
    apply ends_in_check; [exact H2|].
    rewrite (when_raise _ (BufferOverflowSized (size_sub w dsz 1)
                             (size_add w dlen slen)) "checked_strcat").
    apply ends_in_check; [exact H2|]. now apply append_byte_heap.
  - unfold try_checked_strcat. destruct (dsz =? 0); [exact Hh|].
    apply ends_in_bind; [now apply strlen_byte_heap|]. intros dlen st1 H1.
    apply ends_in_bind; [now apply strlen_byte_heap|]. intros slen st2 H2.
    destruct (_ <? dlen); [exact H2|]. destruct (_ <? _); [exact H2|].
    now apply append_byte_heap.
  - rewrite checked_memcmp_cases. apply ends_in_check; [exact Hh|].
    pose proof (memcmp_outcome d s n st) as H.
    destruct (memcmp d s n st); simpl; [now subst | tauto | exact I].
  - rewrite checked_strncmp_cases. apply ends_in_check; [exact Hh|].
    pose proof (strncmp_outcome d s n st) as H.
    destruct (strncmp d s n st); simpl; [now subst | tauto | exact I].
  - rewrite checked_memset_cases. apply ends_in_check; [exact Hh|].
    now apply memset_byte_heap.
Qed.

Lemma operations_keep_bytes_witness :
  ends_in byte_heap (checked_memcpy 1 8 9 3 demo_state)
  /\ ends_in byte_heap (checked_memcpy_offset 64 1 8 4 9 3 demo_state)
  /\ ends_in byte_heap (checked_memcpy_robust 1 8 9 6 3 demo_state)
  /\ ends_in byte_heap (try_checked_memcpy 1 8 9 3 demo_state)
  /\ ends_in byte_heap (try_checked_memcpy_robust 1 8 9 6 3 demo_state)
  /\ ends_in byte_heap (checked_strcat 64 1 8 9 demo_state)
  /\ ends_in byte_heap (try_checked_strcat 64 1 8 9 demo_state)
  /\ ends_in byte_heap (checked_memcmp 1 8 9 6 3 demo_state)
  /\ ends_in byte_heap (checked_strncmp 1 8 9 6 3 demo_state)
  /\ ends_in byte_heap (checked_memset 1 8 (-1) 3 demo_state).
Proof.
  apply (operations_keep_bytes 64 demo_state 1 8 4 9 6 3 (-1)).
  unfold byte_heap. simpl. repeat constructor; lia.
Defined.

(** ** More on concatenation *)

Lemma store_char_same p st :
  in_bounds (heap st) p 1 = true -> byte_at st p = Some 0 ->
  store_char p 0 st = Returned tt st.
Proof.
  intros Hb Hz. unfold store_char.
  rewrite (store_bytes_in_bounds _ _ [to_uchar 0] Hb).
  apply in_bounds_true in Hb. rewrite byte_at_nat in Hz by lia.
  change (list_inserts (Z.to_nat p) [to_uchar 0] (heap st))
    with (<[Z.to_nat p := 0]> (heap st)).
  now rewrite (list_insert_id _ _ _ Hz), set_heap_same.
Qed.

(** Appending the empty string is accepted as soon as the destination
    string fits its capacity with its terminator, and it changes nothing:
    both concatenations return in the very state they were called in. *)
Theorem concatenate_empty_source w st d dsz s dstr :
  is_size_t w dsz ->
  c_string st d dstr ->
  c_string st s [] ->
  Z.of_nat (length dstr) + 1 <= dsz ->
  checked_strcat w d dsz s st = Returned d st
  /\ try_checked_strcat w d dsz s st = Returned 0 st.
Proof.
  intros Hsz Hd Hs Hfit.
  pose proof (strlen_c_string _ _ _ Hd) as Hld.
  pose proof (strlen_c_string _ _ _ Hs) as Hls.
  destruct Hd as [Hdl _]. destruct Hs as [Hsl _].
  pose proof (load_bytes_Some _ _ _ _ Hdl) as Hdb.
  pose proof (load_bytes_Some _ _ _ _ Hsl) as Hsb.
  set (dlen := Z.of_nat (length dstr)) in *.
  change (Z.of_nat (length (@nil Z))) with 0 in *.
  assert (Hz : byte_at st (d + dlen) = Some 0).
  { rewrite (load_bytes_byte_at _ _ _ _ Hdl) by lia.
    rewrite lookup_app_r by lia.
    now replace (Z.to_nat dlen - length dstr)%nat with O by lia. }
  assert (Htail : forall b : Z,
             (memcpy (d + dlen) s 0;; store_char (d + dlen + 0) 0;; mret b) st
             = Returned b st).
  { intros b. apply in_bounds_true in Hdb, Hsb.
    rewrite (bind_returned _ _ _ _ _
               (memcpy_nothing (d + dlen) s st
                  ltac:(apply in_bounds_true; lia)
                  ltac:(apply in_bounds_true; lia))).
    rewrite Z.add_0_r.
    now rewrite (bind_returned _ _ _ _ _
                   (store_char_same (d + dlen) st
                      ltac:(apply in_bounds_true; lia) Hz)). }
  rewrite (checked_strcat_cases w _ _ _ _ _ _ Hld Hls).
  rewrite (try_checked_strcat_steps w _ _ _ _ _ _ Hld Hls).
  rewrite (size_add_exact w dlen 0) by (unfold is_size_t in Hsz; lia).
  rewrite (size_pred w dsz Hsz) by lia. rewrite Z.add_0_r.
  replace (dsz =? 0) with false by lia.
  replace (dlen <? dlen) with false by lia.
  replace (dsz - 1 <? dlen) with false by lia.
  split; apply Htail.
Qed.

Lemma concatenate_empty_source_witness :
  checked_strcat 64 1 4 4 demo_state = Returned 1 demo_state
  /\ try_checked_strcat 64 1 4 4 demo_state = Returned 0 demo_state.
Proof.
  apply (concatenate_empty_source 64 demo_state 1 4 4 [102; 111; 111]).
  - unfold is_size_t; simpl; lia.
  - split; reflexivity.
  - split; reflexivity.
  - simpl; lia.
Defined.

Lemma c_string_frame st st' p l lo hi :
  c_string st p l -> unchanged_outside st st' lo hi ->
  p + Z.of_nat (length l) + 1 <= lo \/ hi <= p ->
  c_string st' p l.
Proof.
  intros [Hl Hnz] [Hlen Hout] Hdis. split; [|exact Hnz].
  pose proof (load_bytes_Some _ _ _ _ Hl) as Hb.
  apply load_bytes_from_byte_at.
  - apply in_bounds_true. apply in_bounds_true in Hb. lia.
  - rewrite length_app. simpl. lia.
  - intros i Hi. rewrite Hout by lia.
    now apply load_bytes_byte_at with (n := Z.of_nat (length l) + 1).
Qed.

Lemma appended_unchanged_outside st d dstr sstr st' :
  appended st d dstr sstr st' ->
  unchanged_outside st st' (d + Z.of_nat (length dstr))
    (d + Z.of_nat (length dstr) + Z.of_nat (length sstr) + 1).
Proof.
  intros (_ & _ & Hlen & Hout). split; [exact Hlen|].
  intros a Ha. apply Hout. lia.
Qed.

(** One successful concatenation, for either family. *)
Lemma concatenate_step w st d dsz s dstr sstr :
  is_size_t w dsz ->
  c_string st d dstr ->
  c_string st s sstr ->
  in_bounds (heap st) d dsz = true ->
  regions_overlap (d + Z.of_nat (length dstr)) s (Z.of_nat (length sstr))
  = false ->
  Z.of_nat (length dstr) + Z.of_nat (length sstr) <= dsz - 1 ->
  exists st',
    appended st d dstr sstr st'
    /\ checked_strcat w d dsz s st = Returned d st'
    /\ try_checked_strcat w d dsz s st = Returned 0 st'.
Proof.
  intros Hsz Hd Hs Hb Ho Hfit.
  destruct (append_tail st d dsz s dstr sstr Hd Hs Hb Hfit Ho)
    as (st' & Happ & Hrun).
  exists st'. split; [exact Happ|].
  pose proof (strlen_c_string _ _ _ Hd) as Hld.
  pose proof (strlen_c_string _ _ _ Hs) as Hls.
  rewrite (checked_strcat_cases w _ _ _ _ _ _ Hld Hls).
  rewrite (try_checked_strcat_steps w _ _ _ _ _ _ Hld Hls).
  rewrite size_add_exact by (unfold is_size_t in Hsz; lia).
  rewrite (size_pred w dsz Hsz) by lia.
  replace (dsz =? 0) with false by lia.
  replace (_ + _ <? Z.of_nat (length dstr)) with false by lia.
  replace (dsz - 1 <? _) with false by lia.
  split; [apply (Hrun Z d) | apply (Hrun Z 0)].
Qed.

(** Concatenations compose: appending a first and then a second string,
    both lying outside the destination buffer, to a destination that has
    room for all three and a terminator, leaves the destination string
    followed by the first followed by the second, of the length that is the
    sum of the three; both source strings are intact and no byte outside
    the destination buffer has changed.  The try family does the same. *)
Theorem concatenate_twice w st d dsz s1 s2 dstr str1 str2 :
  is_size_t w dsz ->
  c_string st d dstr ->
  c_string st s1 str1 ->
  c_string st s2 str2 ->
  in_bounds (heap st) d dsz = true ->
  Z.of_nat (length dstr) + Z.of_nat (length str1) + Z.of_nat (length str2)
  <= dsz - 1 ->
  s1 + Z.of_nat (length str1) + 1 <= d \/ d + dsz <= s1 ->
  s2 + Z.of_nat (length str2) + 1 <= d \/ d + dsz <= s2 ->
  exists st1 st2,
    checked_strcat w d dsz s1 st = Returned d st1
    /\ checked_strcat w d dsz s2 st1 = Returned d st2
    /\ try_checked_strcat w d dsz s1 st = Returned 0 st1
    /\ try_checked_strcat w d dsz s2 st1 = Returned 0 st2
    /\ c_string st2 d (dstr ++ str1 ++ str2)
    /\ strlen d st2
       = Returned (Z.of_nat (length dstr) + Z.of_nat (length str1)
                   + Z.of_nat (length str2)) st2
    /\ c_string st2 s1 str1 /\ c_string st2 s2 str2
    /\ unchanged_outside st st2 d (d + dsz).
Proof.
  intros Hsz Hd H1 H2 Hb Hfit Hout1 Hout2.
  pose proof Hb as Hb'. apply in_bounds_true in Hb'.
  destruct (concatenate_step w st d dsz s1 dstr str1) as (st1 & Ha1 & Hc1 & Ht1);
    [assumption.. | unfold regions_overlap; lia | lia |].
  pose proof (appended_unchanged_outside _ _ _ _ _ Ha1) as Hu1.
  destruct Ha1 as (Hd1 & _ & Hlen1 & _).
  assert (H21 : c_string st1 s2 str2)
    by (eapply c_string_frame; [exact H2 | exact Hu1 | lia]).
  assert (H11 : c_string st1 s1 str1)
    by (eapply c_string_frame; [exact H1 | exact Hu1 | lia]).
  destruct (concatenate_step w st1 d dsz s2 (dstr ++ str1) str2)
    as (st2 & Ha2 & Hc2 & Ht2);
    [assumption | assumption | assumption
    | apply in_bounds_true; lia
    | rewrite length_app; unfold regions_overlap; lia
    | rewrite length_app; lia |].
  pose proof (appended_unchanged_outside _ _ _ _ _ Ha2) as Hu2.
  rewrite length_app in Hu2.
  destruct Ha2 as (Hd2 & _ & Hlen2 & _).
  rewrite <- app_assoc in Hd2.
  exists st1, st2. repeat (split; [assumption|]).
  split.
  { rewrite (strlen_c_string _ _ _ Hd2), !length_app. f_equal. lia. }
  split; [eapply c_string_frame; [exact H11 | exact Hu2 | lia]|].
  split; [eapply c_string_frame; [exact H21 | exact Hu2 | lia]|].
  eapply unchanged_outside_trans.
  - eapply unchanged_outside_wider; [exact Hu1 | lia | lia].
  - eapply unchanged_outside_wider; [exact Hu2 | lia | lia].
Qed.

Lemma concatenate_twice_witness :
  exists st1 st2,
    checked_strcat 64 1 8 9 pieces_state = Returned 1 st1
    /\ checked_strcat 64 1 8 11 st1 = Returned 1 st2
    /\ try_checked_strcat 64 1 8 9 pieces_state = Returned 0 st1
    /\ try_checked_strcat 64 1 8 11 st1 = Returned 0 st2
    /\ c_string st2 1 ([97] ++ [98] ++ [99; 100])
    /\ strlen 1 st2
       = Returned (Z.of_nat (length [97]) + Z.of_nat (length [98])
                   + Z.of_nat (length [99; 100])) st2
    /\ c_string st2 9 [98] /\ c_string st2 11 [99; 100]
    /\ unchanged_outside pieces_state st2 1 (1 + 8).
Proof.
  apply (concatenate_twice 64 pieces_state 1 8 9 11 [97] [98] [99; 100]).
  - unfold is_size_t; simpl; lia.
  - split; reflexivity.
  - split; reflexivity.
  - split; reflexivity.
  - reflexivity.
  - simpl; lia.
  - simpl; lia.
  - simpl; lia.
Defined.

(** "a", then "b", then "cd". *)
Example concatenate_a_b_cd :
  (checked_strcat 64 1 8 9;; checked_strcat 64 1 8 11) pieces_state
  = Returned 1
      (mkState [0; 97; 98; 99; 100; 0; 7; 7; 7; 98; 0; 99; 100; 0] []).
Proof. reflexivity. Qed.

(** ** How far the offset copy can reach *)

(** Whatever the offset copy lets through, it changes no byte outside the
    [count] bytes from [destination + offset] on, and these end before
    [destination + 2 * capacity - 1]: it can overrun the capacity, but by
    less than the capacity itself.  It returns the destination. *)
Theorem offset_copy_reach w st d dsz off s n r st' :
  0 <= off ->
  checked_memcpy_offset w d dsz off s n st = Returned r st' ->
  r = d
  /\ off + n <= 2 * dsz - 1
  /\ unchanged_outside st st' (d + off) (d + off + n)
  /\ unchanged_outside st st' d (d + (2 * dsz - 1)).
Proof.
  intros Hoff H. rewrite checked_memcpy_offset_cases in H.
  destruct (_ || _) eqn:E; [discriminate|].
  apply memcpy_then_ret_returned in H as [-> H].
  apply memcpy_returned in H as (_ & Hn & _ & _ & _ & Hc).
  apply copied_unchanged_outside in Hc.
  split; [reflexivity|]. split; [lia|]. split; [exact Hc|].
  eapply unchanged_outside_wider; [exact Hc | lia | lia].
Qed.

Lemma offset_copy_reach_witness :
  1 = 1
  /\ 3 + 3 <= 2 * 4 - 1
  /\ unchanged_outside demo_state
       (mkState [0; 102; 111; 111; 98; 97; 114; 7; 7; 98; 97; 114; 0; 9; 9] [])
       (1 + 3) (1 + 3 + 3)
  /\ unchanged_outside demo_state
       (mkState [0; 102; 111; 111; 98; 97; 114; 7; 7; 98; 97; 114; 0; 9; 9] [])
       1 (1 + (2 * 4 - 1)).
Proof.
  apply (offset_copy_reach 64 demo_state 1 4 3 9 3 1); [lia | reflexivity].
Defined.
